(** * Lumina Studio: scene store, timeline and generation jobs

    A shallow embedding of the [App] component of the repository
    (the React component that follows the interface declarations of
    [types.ts]).  The component keeps seven state cells ([useState]); every
    handler is a function of the committed state, and every [async] handler
    is cut at its [await]s into the segments that run without interruption.

    - JavaScript numbers that hold seconds ([duration], [startTime]) are
      IEEE 754 binary64 values: Rocq's primitive [float].
    - Track ids and scene numbers are integer valued ([1], [2], [3];
      [Type.INTEGER] in the response schema): [Z].  A clip name prints the
      scene number in decimal, as a template literal does for integers
      below 10^21 in magnitude.
    - [Record<string, T>] is a [gmap string T]; optional fields are [option].
    - [generateId()] draws from [Math.random]: the drawn id is an input. *)

From Stdlib Require Import ZArith List String Bool Floats Lia.
From stdpp Require Import base option list strings gmap pretty.

Local Open Scope string_scope.
Local Open Scope Z_scope.

(** ** Data model (types.ts) *)

Module Scene.
Record t : Type := mk {
  id : string;
  number : Z;
  slugline : string;
  description : string;
  storyboardUrl : option string;
  videoUrl : option string;
  duration : float   (* in seconds *)
}.

(** [{ ...s, duration: d }] *)
Definition with_duration (d : float) (s : t) : t :=
  mk (id s) (number s) (slugline s) (description s)
     (storyboardUrl s) (videoUrl s) d.

(** [{ ...s, storyboardUrl: u }] *)
Definition with_storyboardUrl (u : string) (s : t) : t :=
  mk (id s) (number s) (slugline s) (description s)
     (Some u) (videoUrl s) (duration s).

(** [{ ...s, videoUrl }] *)
Definition with_videoUrl (u : string) (s : t) : t :=
  mk (id s) (number s) (slugline s) (description s)
     (storyboardUrl s) (Some u) (duration s).
End Scene.

Module Script.
Record t : Type := mk {
  title : string;
  rawContent : string;
  scenes : list Scene.t
}.

Definition with_scenes (l : list Scene.t) (s : t) : t :=
  mk (title s) (rawContent s) l.

Definition with_rawContent (r : string) (s : t) : t :=
  mk (title s) r (scenes s).
End Script.

Inductive ClipType : Type := ClipVideo | ClipAudio | ClipEffect | ClipTitle.

Module Clip.
Record t : Type := mk {
  id : string;
  trackId : Z;
  startTime : float;
  duration : float;
  name : string;
  type : ClipType;
  color : string;
  sceneId : option string
}.

Definition with_duration (d : float) (c : t) : t :=
  mk (id c) (trackId c) (startTime c) d (name c) (type c) (color c)
     (sceneId c).

Definition with_startTime (s : float) (c : t) : t :=
  mk (id c) (trackId c) s (duration c) (name c) (type c) (color c)
     (sceneId c).
End Clip.

Inductive TrackType : Type := TrackVideo | TrackAudio.

Module Track.
Record t : Type := mk {
  id : Z;
  name : string;
  type : TrackType;
  clips : list Clip.t
}.

(** [{ ...track, clips: l }] *)
Definition with_clips (l : list Clip.t) (tr : t) : t :=
  mk (id tr) (name tr) (type tr) l.
End Track.

Inductive Tab : Type := TabScript | TabStoryboard | TabTimeline.

Record VeoGenerationState : Type := mkVeo {
  isGenerating : bool;
  progressMessage : string
}.

(** ** The state cells of [App] *)

Record AppState : Type := mkApp {
  activeTab : Tab;
  script : Script.t;
  tracks : list Track.t;
  isParsing : bool;
  generatingImages : gmap string bool;
  veoState : gmap string VeoGenerationState;
  hasPaidKey : bool
}.

(** The setters; those the code calls with an updater [prev => ...] take a
    function. *)

Definition setActiveTab (tab : Tab) (st : AppState) : AppState :=
  mkApp tab (script st) (tracks st) (isParsing st) (generatingImages st)
        (veoState st) (hasPaidKey st).

Definition setScript (f : Script.t -> Script.t) (st : AppState) : AppState :=
  mkApp (activeTab st) (f (script st)) (tracks st) (isParsing st)
        (generatingImages st) (veoState st) (hasPaidKey st).

Definition setTracks (f : list Track.t -> list Track.t) (st : AppState)
  : AppState :=
  mkApp (activeTab st) (script st) (f (tracks st)) (isParsing st)
        (generatingImages st) (veoState st) (hasPaidKey st).

Definition setIsParsing (b : bool) (st : AppState) : AppState :=
  mkApp (activeTab st) (script st) (tracks st) b (generatingImages st)
        (veoState st) (hasPaidKey st).

Definition setGeneratingImages (f : gmap string bool -> gmap string bool)
  (st : AppState) : AppState :=
  mkApp (activeTab st) (script st) (tracks st) (isParsing st)
        (f (generatingImages st)) (veoState st) (hasPaidKey st).

Definition setVeoState
  (f : gmap string VeoGenerationState -> gmap string VeoGenerationState)
  (st : AppState) : AppState :=
  mkApp (activeTab st) (script st) (tracks st) (isParsing st)
        (generatingImages st) (f (veoState st)) (hasPaidKey st).

Definition setHasPaidKey (b : bool) (st : AppState) : AppState :=
  mkApp (activeTab st) (script st) (tracks st) (isParsing st)
        (generatingImages st) (veoState st) b.

(** The line feed of a template string. *)
Definition LF : string := String (Ascii.ascii_of_nat 10) EmptyString.

Definition INITIAL_SCRIPT : string :=
  "INT. SPACESHIP COCKPIT - NIGHT" ++ LF ++ LF ++
  "The cockpit is bathed in urgent red emergency lighting. Sparks shower from the ceiling."
  ++ LF ++ LF ++
  "COMMANDER ZARA (30s, intense) grips the control stick, knuckles white. The void of space swirls outside the viewport."
  ++ LF ++ LF ++
  "ZARA" ++ LF ++
  "Hold on! We're making the jump!" ++ LF ++ LF ++
  "EXT. SPACE - CONTINUOUS" ++ LF ++ LF ++
  "The sleek silver vessel elongates, turning into a streak of starlight before vanishing into hyperspace.".

(** The initial values passed to [useState]. *)
Definition initialState : AppState :=
  mkApp TabScript
        (Script.mk "Untitled Project" INITIAL_SCRIPT [])
        [ Track.mk 1 "Video 1" TrackVideo [];
          Track.mk 2 "Video 2" TrackVideo [];
          Track.mk 3 "Audio 1" TrackAudio [] ]
        false ∅ ∅ false.

(** ** Synchronous actions *)

(** [clip.sceneId === sceneId]: an absent link equals no string. *)
Definition linkedTo (sceneId : string) (clip : Clip.t) : bool :=
  match Clip.sceneId clip with
  | Some x => String.eqb x sceneId
  | None => false
  end.

Definition updateSceneDuration (sceneId : string) (newDuration : float)
  (st : AppState) : AppState :=
  (* Update Script *)
  let st1 :=
    setScript (fun prev =>
      Script.with_scenes
        (map (fun s => if String.eqb (Scene.id s) sceneId
                       then Scene.with_duration newDuration s else s)
             (Script.scenes prev))
        prev) st in
  (* Update Timeline Clips that are linked to this scene *)
  setTracks (fun prev =>
    map (fun track =>
      Track.with_clips
        (map (fun clip => if linkedTo sceneId clip
                          then Clip.with_duration newDuration clip
                          else clip)
             (Track.clips track))
        track) prev) st1.

(** [isNaN(val)] *)
Definition isNaN (x : float) : bool := PrimFloat.is_nan x.

(** The [onChange] handler of a scene card's duration input; [val] is the
    number [parseFloat(e.target.value)] returned. *)
Definition onDurationChange (scene : Scene.t) (val : float) (st : AppState)
  : AppState :=
  if negb (isNaN val) && (0 <=? val)%float
  then updateSceneDuration (Scene.id scene) val st
  else st.

Definition addToTimeline (scene : Scene.t) (newId : string) (st : AppState)
  : AppState :=
  let newClip :=
    Clip.mk newId
            1                     (* Default to first video track *)
            0%float
            (Scene.duration scene)
            ("Scene " ++ pretty (Scene.number scene))
            ClipVideo
            "#06b6d4"
            (Some (Scene.id scene)) in
  (* Find end time of last clip on track 1 *)
  let track1 := List.find (fun t => Track.id t =? 1) (tracks st) in
  let startTime :=
    match track1 with
    | Some t1 =>
        match last (Track.clips t1) with
        | Some lastClip => (Clip.startTime lastClip + Clip.duration lastClip)%float
        | None => 0%float
        end
    | None => 0%float
    end in
  let newClip := Clip.with_startTime startTime newClip in
  setActiveTab TabTimeline
    (setTracks (fun prev =>
       map (fun t => if Track.id t =? 1
                     then Track.with_clips (Track.clips t ++ [newClip]) t
                     else t) prev) st).

(** ** Asynchronous actions

    An [async] handler runs up to its first [await], is suspended there as
    a [Job], and resumes when the awaited promise settles.  Other handlers
    run in between.  [alert] and [console.error] are recorded in the
    [World]. *)

Inductive Settled (A : Type) : Type :=
| Fulfilled (a : A)
| Rejected (e : string).
Arguments Fulfilled {A} a.
Arguments Rejected {A} e.

(** One element of the array [JSON.parse(response.text || "[]")] yields,
    as the response schema of [parseScript] describes it. *)
Record RawScene : Type := mkRaw {
  scene_number : Z;
  raw_slugline : string;
  visual_description : string;
  estimated_duration : float
}.

Record InlineData : Type := mkInline { mimeType : string; data : string }.
Record Part : Type := mkPart { inlineData : option InlineData }.

(** A video operation as [generateVideos] and [getVideosOperation] return
    it: [operation.done] and
    [operation.response?.generatedVideos?.[0]?.video?.uri]. *)
Record Operation : Type := mkOp { done_ : bool; videoUri : option string }.

(** [window.aistudio] on a key request: absent, a rejected promise, or the
    answer of [hasSelectedApiKey()]. *)
Inductive KeyReply : Type :=
| NoAiStudio
| KeyRejected
| HasKey (hasKey : bool).

Inductive Job : Type :=
| AwaitCheckKey                          (* checkKey, started on mount *)
| AwaitSelectKey                         (* handleSelectKey from the sidebar *)
| AwaitParse                             (* parseScript, at generateContent *)
| AwaitImage (sceneId description : string)
                                         (* generateStoryboardImage *)
| AwaitKey (scene : Scene.t)             (* generateVeoVideo, at handleSelectKey *)
| AwaitVideos (scene : Scene.t)          (* generateVeoVideo, at generateVideos *)
| AwaitPoll (scene : Scene.t)            (* generateVeoVideo, in the polling loop *)
| AwaitFetch (scene : Scene.t).          (* generateVeoVideo, at fetch and blob *)

Record World : Type := mkWorld {
  app : AppState;
  jobs : list Job;
  alerts : list string;
  console : list (string * string)
}.

Definition onApp (f : AppState -> AppState) (w : World) : World :=
  mkWorld (f (app w)) (jobs w) (alerts w) (console w).

Definition suspend (j : Job) (w : World) : World :=
  mkWorld (app w) (jobs w ++ [j]) (alerts w) (console w).

Definition alert (msg : string) (w : World) : World :=
  mkWorld (app w) (jobs w) (alerts w ++ [msg]) (console w).

Definition console_error (msg e : string) (w : World) : World :=
  mkWorld (app w) (jobs w) (alerts w) (console w ++ [(msg, e)]).

Definition initialWorld : World :=
  mkWorld initialState [AwaitCheckKey] [] [].

(** JavaScript truthiness of an optional string. *)
Definition truthy (o : option string) : bool :=
  match o with
  | Some s => negb (String.eqb s "")
  | None => false
  end.

(** *** checkKey, handleSelectKey *)

Definition keySettled (r : KeyReply) (w : World) : World :=
  match r with
  | HasKey hasKey => onApp (setHasPaidKey hasKey) w
  | NoAiStudio | KeyRejected => w
  end.

(** *** parseScript *)

Definition isWhiteSpace (c : Ascii.ascii) : bool :=
  let n := Ascii.nat_of_ascii c in
  ((9 <=? n) && (n <=? 13) || (n =? 32))%nat.

(** [!s.trim()] over code units below 128. *)
Fixpoint isBlank (s : string) : bool :=
  match s with
  | EmptyString => true
  | String c r => isWhiteSpace c && isBlank r
  end.

Definition parseScript (w : World) : World :=
  if isBlank (Script.rawContent (script (app w))) then w
  else suspend AwaitParse (onApp (setIsParsing true) w).

(** [parsed.map(s => ({ id: generateId(), ... }))]; [ids n] is the n-th
    draw of [generateId]. *)
Fixpoint newScenes (ids : nat -> string) (n : nat) (parsed : list RawScene)
  : list Scene.t :=
  match parsed with
  | [] => []
  | s :: rest =>
      Scene.mk (ids n) (scene_number s) (raw_slugline s)
               (visual_description s) None None (estimated_duration s)
      :: newScenes ids (S n) rest
  end.

(** The rest of [parseScript].  [Rejected] stands for every way the [try]
    block throws: the request fails, the text is not JSON, the value has no
    [map], or an element is [null].  [Fulfilled] holds the elements as the
    response schema requires them. *)
Definition parseSettled (r : Settled (list RawScene)) (ids : nat -> string)
  (w : World) : World :=
  let w1 :=
    match r with
    | Fulfilled parsed =>
        onApp (fun st =>
          setActiveTab TabStoryboard
            (setScript (Script.with_scenes (newScenes ids 0 parsed)) st)) w
    | Rejected e =>
        alert "Failed to parse script. See console."
          (console_error "Failed to parse script" e w)
    end in
  onApp (setIsParsing false) w1.

(** *** generateStoryboardImage *)

Definition generateStoryboardImage (sceneId description : string)
  (w : World) : World :=
  suspend (AwaitImage sceneId description)
    (onApp (setGeneratingImages (fun prev => <[sceneId := true]> prev)) w).

(** The loop over the parts: the data URL of the first part with
    [inlineData], the empty string if there is none. *)
Fixpoint imageUrlOf (parts : list Part) : string :=
  match parts with
  | [] => ""
  | part :: rest =>
      match inlineData part with
      | Some d => "data:" ++ mimeType d ++ ";base64," ++ data d
      | None => imageUrlOf rest
      end
  end.

Definition imageSettled (sceneId : string) (r : Settled (list Part))
  (w : World) : World :=
  let w1 :=
    match r with
    | Fulfilled parts =>
        let imageUrl := imageUrlOf parts in
        if negb (String.eqb imageUrl "")
        then onApp (setScript (fun prev =>
               Script.with_scenes
                 (map (fun s => if String.eqb (Scene.id s) sceneId
                                then Scene.with_storyboardUrl imageUrl s
                                else s)
                      (Script.scenes prev)) prev)) w
        else w
    | Rejected e => console_error "Image gen failed" e w
    end in
  onApp (setGeneratingImages (fun prev => <[sceneId := false]> prev)) w1.

(** *** generateVeoVideo *)

(** The [finally] block. *)
Definition veoFinally (scene : Scene.t) (w : World) : World :=
  onApp (setVeoState (fun prev =>
           <[Scene.id scene := mkVeo false ""]> prev)) w.

(** The [catch] block followed by [finally]. *)
Definition veoFailed (scene : Scene.t) (e : string) (w : World) : World :=
  veoFinally scene
    (alert "Video generation failed. Ensure you are using a paid billing project."
       (console_error "Veo generation failed" e w)).

(** From the storyboard check to the call of [generateVideos]. *)
Definition veoRequest (scene : Scene.t) (w : World) : World :=
  if negb (truthy (Scene.storyboardUrl scene))
  then alert "Please generate a storyboard image first to use as a reference." w
  else suspend (AwaitVideos scene)
         (onApp (setVeoState (fun prev =>
            <[Scene.id scene := mkVeo true "Initializing Veo..."]> prev)) w).

Definition generateVeoVideo (scene : Scene.t) (w : World) : World :=
  if negb (hasPaidKey (app w))
  then suspend (AwaitKey scene) w
  else veoRequest scene w.

(** [await handleSelectKey()] settles with [sel]; then
    [await window.aistudio.hasSelectedApiKey()] settles with [recheck].
    Both lie outside the [try]: a missing [window.aistudio] or a rejection
    ends the call. *)
Definition veoKeySettled (scene : Scene.t) (sel : KeyReply)
  (recheck : Settled bool) (w : World) : World :=
  match sel with
  | HasKey hasKey =>
      let w1 := onApp (setHasPaidKey hasKey) w in
      match recheck with
      | Fulfilled true => veoRequest scene w1
      | Fulfilled false => w1
      | Rejected _ => w1
      end
  | NoAiStudio | KeyRejected => w
  end.

(** After the polling loop. *)
Definition veoDone (scene : Scene.t) (operation : Operation) (w : World)
  : World :=
  if truthy (videoUri operation)
  then suspend (AwaitFetch scene) w
  else veoFinally scene w.

(** The test of [while (!operation.done)]; one turn of the loop waits five
    seconds and asks again. *)
Definition veoPolling (scene : Scene.t) (operation : Operation) (w : World)
  : World :=
  if done_ operation then veoDone scene operation w
  else suspend (AwaitPoll scene) w.

Definition veoVideosSettled (scene : Scene.t) (r : Settled Operation)
  (w : World) : World :=
  match r with
  | Fulfilled operation =>
      veoPolling scene operation
        (onApp (setVeoState (fun prev =>
           <[Scene.id scene := mkVeo true "Generating video..."]> prev)) w)
  | Rejected e => veoFailed scene e w
  end.

Definition veoPollSettled (scene : Scene.t) (r : Settled Operation)
  (w : World) : World :=
  match r with
  | Fulfilled operation => veoPolling scene operation w
  | Rejected e => veoFailed scene e w
  end.

Definition veoFetchSettled (scene : Scene.t) (r : Settled string)
  (w : World) : World :=
  match r with
  | Fulfilled videoUrl =>
      veoFinally scene
        (onApp (setScript (fun prev =>
           Script.with_scenes
             (map (fun s => if String.eqb (Scene.id s) (Scene.id scene)
                            then Scene.with_videoUrl videoUrl s else s)
                  (Script.scenes prev)) prev)) w)
  | Rejected e => veoFailed scene e w
  end.

(** ** The component as a transition system *)

Inductive Reply : Type :=
| KeyAnswer (sel : KeyReply)
| ParseAnswer (r : Settled (list RawScene)) (ids : nat -> string)
| ImageAnswer (r : Settled (list Part))
| VeoKeyAnswer (sel : KeyReply) (recheck : Settled bool)
| OperationAnswer (r : Settled Operation)
| FetchAnswer (r : Settled string).

Inductive Event : Type :=
| ClickTab (tab : Tab)
| ClickConnectBilling
| EditScript (text : string)
| ClickAnalyze
| ChangeDuration (i : nat) (val : float)
| ClickGenerateImage (i : nat)
| ClickVeoVideo (i : nat)
| ClickAddToTimeline (i : nat) (newId : string)
| Settle (k : nat) (r : Reply).

(** [generatingImages[sceneId]] and [veoState[sceneId]?.isGenerating], the
    [disabled] attributes of the two generate buttons. *)
Definition imageBusy (sceneId : string) (st : AppState) : bool :=
  match generatingImages st !! sceneId with
  | Some b => b
  | None => false
  end.

Definition veoBusy (sceneId : string) (st : AppState) : bool :=
  match veoState st !! sceneId with
  | Some v => isGenerating v
  | None => false
  end.

(** The i-th scene card; cards are rendered on the storyboard tab only. *)
Definition card (i : nat) (w : World) : option Scene.t :=
  match activeTab (app w) with
  | TabStoryboard => Script.scenes (script (app w)) !! i
  | _ => None
  end.

Definition dropJob (k : nat) (w : World) : World :=
  mkWorld (app w) (delete k (jobs w)) (alerts w) (console w).

Definition resume (j : Job) (r : Reply) (w : World) : option World :=
  match j, r with
  | AwaitCheckKey, KeyAnswer sel => Some (keySettled sel w)
  | AwaitSelectKey, KeyAnswer sel => Some (keySettled sel w)
  | AwaitParse, ParseAnswer r ids => Some (parseSettled r ids w)
  | AwaitImage sceneId _, ImageAnswer r => Some (imageSettled sceneId r w)
  | AwaitKey scene, VeoKeyAnswer sel recheck =>
      Some (veoKeySettled scene sel recheck w)
  | AwaitVideos scene, OperationAnswer r => Some (veoVideosSettled scene r w)
  | AwaitPoll scene, OperationAnswer r => Some (veoPollSettled scene r w)
  | AwaitFetch scene, FetchAnswer r => Some (veoFetchSettled scene r w)
  | _, _ => None
  end.

(** One event. [None]: the event cannot happen in [w] (the control is not
    rendered, or no such job is waiting for such a reply).  A click on a
    disabled button reaches no handler and leaves [w] as it is. *)
Definition step (w : World) (e : Event) : option World :=
  match e with
  | ClickTab tab => Some (onApp (setActiveTab tab) w)
  | ClickConnectBilling =>
      if hasPaidKey (app w) then None else Some (suspend AwaitSelectKey w)
  | EditScript text =>
      match activeTab (app w) with
      | TabScript =>
          Some (onApp (setScript (Script.with_rawContent text)) w)
      | _ => None
      end
  | ClickAnalyze =>
      match activeTab (app w) with
      | TabScript => if isParsing (app w) then Some w else Some (parseScript w)
      | _ => None
      end
  | ChangeDuration i val =>
      match card i w with
      | Some scene => Some (onApp (onDurationChange scene val) w)
      | None => None
      end
  | ClickGenerateImage i =>
      match card i w with
      | Some scene =>
          if imageBusy (Scene.id scene) (app w) then Some w
          else Some (generateStoryboardImage (Scene.id scene)
                       (Scene.description scene) w)
      | None => None
      end
  | ClickVeoVideo i =>
      match card i w with
      | Some scene =>
          if veoBusy (Scene.id scene) (app w) then Some w
          else Some (generateVeoVideo scene w)
      | None => None
      end
  | ClickAddToTimeline i newId =>
      match card i w with
      | Some scene => Some (onApp (addToTimeline scene newId) w)
      | None => None
      end
  | Settle k r =>
      match jobs w !! k with
      | Some j => resume j r (dropJob k w)
      | None => None
      end
  end.

Fixpoint run (es : list Event) (w : World) : option World :=
  match es with
  | [] => Some w
  | e :: rest =>
      match step w e with
      | Some w' => run rest w'
      | None => None
      end
  end.

Inductive reachable : World -> Prop :=
| reachable_init : reachable initialWorld
| reachable_step w e w' :
    reachable w -> step w e = Some w' -> reachable w'.

(** ** Vocabulary of the properties *)

(** The world the events [es] lead to from the initial one. *)
Definition after (es : list Event) : World :=
  default initialWorld (run es initialWorld).

(** An alert was shown or an error was logged between [w] and [w']. *)
Definition signalled (w w' : World) : Prop :=
  alerts w' <> alerts w \/ console w' <> console w.

(** The clips of the track [tracks.find(t => t.id === n)]. *)
Definition trackClips (n : Z) (st : AppState) : list Clip.t :=
  match List.find (fun t => Track.id t =? n) (tracks st) with
  | Some t => Track.clips t
  | None => []
  end.

(** The place of an appended clip in the words of the specification: the
    last clip's start time plus its duration, zero on an empty track. *)
Definition endOf (clips : list Clip.t) : float :=
  match last clips with
  | Some lastClip => (Clip.startTime lastClip + Clip.duration lastClip)%float
  | None => 0%float
  end.

(** The clip [addToTimeline] builds for [scene], placed at [startTime]. *)
Definition sceneClip (scene : Scene.t) (newId : string) (startTime : float)
  : Clip.t :=
  Clip.mk newId 1 startTime (Scene.duration scene)
          ("Scene " ++ pretty (Scene.number scene)) ClipVideo "#06b6d4"
          (Some (Scene.id scene)).

(** Scenes added to the timeline one after the other, each with the id
    drawn for its clip. *)
Definition addScenes (adds : list (Scene.t * string)) (st : AppState)
  : AppState :=
  fold_left (fun st a => addToTimeline (fst a) (snd a) st) adds st.

(** Sequential placement in the words of the specification: each clip
    starts where the one before it ends. *)
Fixpoint startsFrom (start : float) (durations : list float) : list float :=
  match durations with
  | [] => []
  | d :: rest => start :: startsFrom (start + d)%float rest
  end.

Fixpoint countJobs (p : Job -> bool) (l : list Job) : nat :=
  match l with
  | [] => 0
  | j :: rest => (if p j then 1 else 0) + countJobs p rest
  end.

Definition isImageJob (sceneId : string) (j : Job) : bool :=
  match j with
  | AwaitImage s _ => String.eqb s sceneId
  | _ => false
  end.

(** The calls of [generateStoryboardImage] for [sceneId] that have not
    finished. *)
Definition imageJobs (sceneId : string) (w : World) : nat :=
  countJobs (isImageJob sceneId) (jobs w).

(** What the asynchronous handlers leave alone: the tracks. *)
Definition keepsTracks (f : World -> World) : Prop :=
  forall w, tracks (app (f w)) = tracks (app w).

(** What the handlers other than the image job leave alone: the image
    flags and the pending image jobs. *)
Definition keepsImageJobs (f : World -> World) : Prop :=
  forall w sceneId,
    imageBusy sceneId (app (f w)) = imageBusy sceneId (app w) /\
    imageJobs sceneId (f w) = imageJobs sceneId w.

(** Each set image flag stands for one pending image job, each other flag
    for none. *)
Definition imageFlagsCountJobs (w : World) : Prop :=
  forall sceneId,
    imageJobs sceneId w = if imageBusy sceneId (app w) then 1%nat else 0%nat.

(** *** Sample data *)

Definition sampleIds (n : nat) : string := "s" ++ pretty n.

Definition sampleParsed : list RawScene :=
  [ mkRaw 1 "INT. COCKPIT - NIGHT" "red emergency lighting" 4%float;
    mkRaw 2 "EXT. SPACE - CONTINUOUS" "a streak of starlight" 6%float;
    mkRaw 3 "INT. BRIDGE - DAY" "calm" 5%float ].

(** The script is analysed and the reply holds three scenes of 4, 6 and 5
    seconds. *)
Definition parsedTrace : list Event :=
  [ ClickAnalyze; Settle 1 (ParseAnswer (Fulfilled sampleParsed) sampleIds) ].

(** The first scene card after [parsedTrace]. *)
Definition scene0 : Scene.t :=
  Scene.mk "s0" 1 "INT. COCKPIT - NIGHT" "red emergency lighting" None None
           4%float.

(** Scenario A: the three scenes are added to the timeline in order. *)
Definition scenarioA : list Event :=
  parsedTrace ++
  [ ClickAddToTimeline 0 "c0"; ClickTab TabStoryboard;
    ClickAddToTimeline 1 "c1"; ClickTab TabStoryboard;
    ClickAddToTimeline 2 "c2" ].

(** A second analysis is under way while the three scenes are held. *)
Definition reparseTrace : list Event :=
  parsedTrace ++ [ClickTab TabScript; ClickAnalyze].

(** The image of the first scene has been requested. *)
Definition imageTrace : list Event :=
  parsedTrace ++ [ClickGenerateImage 0].

(** The first scene has got its storyboard image; no key is selected. *)
Definition imagedTrace : list Event :=
  imageTrace ++
  [ Settle 1 (ImageAnswer
      (Fulfilled [mkPart None; mkPart (Some (mkInline "image/png" "AAAA"))])) ].

(** The first scene card after [imagedTrace]. *)
Definition scene0Imaged : Scene.t :=
  Scene.with_storyboardUrl "data:image/png;base64,AAAA" scene0.

(** The key check started on mount answers that a paid key is selected. *)
Definition keyedTrace : list Event :=
  imagedTrace ++ [Settle 0 (KeyAnswer (HasKey true))].

(** With a key selected, the video of the first scene is requested, polled
    once without result and once with the video's address. *)
Definition fetchingTrace : list Event :=
  keyedTrace ++
  [ ClickVeoVideo 0;
    Settle 0 (OperationAnswer (Fulfilled (mkOp false None)));
    Settle 0 (OperationAnswer
                (Fulfilled (mkOp true (Some "https://video.example/1")))) ].

(** With a key selected, the video of the first scene is requested and
    polled once without result. *)
Definition pollingTrace : list Event :=
  keyedTrace ++
  [ ClickVeoVideo 0;
    Settle 0 (OperationAnswer (Fulfilled (mkOp false None))) ].

(** The first scene is on the timeline, then the script is analysed again
    and the reply holds one scene with a new id. *)
Definition orphanTrace : list Event :=
  parsedTrace ++
  [ ClickAddToTimeline 0 "c0"; ClickTab TabScript; ClickAnalyze;
    Settle 1 (ParseAnswer
                (Fulfilled [mkRaw 1 "EXT. DOCK - DAWN" "fog" 3%float])
                (fun n => "t" ++ pretty n)) ].

(** The video button of the first scene is clicked twice while no key is
    selected, and both key requests are answered with a selected key. *)
Definition keyRaceTrace : list Event :=
  imagedTrace ++
  [ ClickVeoVideo 0; ClickVeoVideo 0;
    Settle 1 (VeoKeyAnswer (HasKey true) (Fulfilled true));
    Settle 1 (VeoKeyAnswer (HasKey true) (Fulfilled true)) ].

(** The second scene card after [parsedTrace]; it has no image. *)
Definition scene1 : Scene.t :=
  Scene.mk "s1" 2 "EXT. SPACE - CONTINUOUS" "a streak of starlight" None None
           6%float.

(** A video is requested for the i-th card while no key is selected, and
    the key request ends without a key. *)
Definition noKeyTrace (i : nat) : list Event :=
  imagedTrace ++
  [ ClickVeoVideo i; Settle 1 (VeoKeyAnswer (HasKey false) (Fulfilled false)) ].



(** ** What the views show *)

(** A string that is truthy in JavaScript: present and not empty. *)
Definition nonEmpty (o : option string) : option string :=
  match o with
  | Some s => if String.eqb s "" then None else Some s
  | None => None
  end.

(** The visual of a scene card in [StoryboardView]: the video if there is
    one, else the storyboard image, else the placeholder. *)
Inductive Visual : Type :=
| ShowVideo (src : string)
| ShowImage (src : string)
| NoVisual.

Definition visualOf (scene : Scene.t) : Visual :=
  match nonEmpty (Scene.videoUrl scene) with
  | Some v => ShowVideo v
  | None =>
      match nonEmpty (Scene.storyboardUrl scene) with
      | Some u => ShowImage u
      | None => NoVisual
      end
  end.

(** The generation status overlay of a scene card: its text when it is
    shown. *)
Definition overlay (scene : Scene.t) (st : AppState) : option string :=
  if imageBusy (Scene.id scene) st || veoBusy (Scene.id scene) st
  then Some (match veoState st !! Scene.id scene with
             | Some v => if isGenerating v then progressMessage v
                         else "Rendering Image..."
             | None => "Rendering Image..."
             end)
  else None.

(** The labels of the two generate buttons of a card. *)
Definition imageButtonLabel (scene : Scene.t) : string :=
  if truthy (Scene.storyboardUrl scene)
  then "Regenerate Image" else "Generate Image".

Definition videoButtonLabel (scene : Scene.t) : string :=
  if truthy (Scene.videoUrl scene) then "Regenerate Video" else "Veo Video".

(** The thumbnail of a clip in [TimelineView]: the storyboard image of
    [script.scenes.find(s => s.id === clip.sceneId)], when the clip has a
    link and that scene has an image. *)
Definition thumbnail (clip : Clip.t) (st : AppState) : option string :=
  match nonEmpty (Clip.sceneId clip) with
  | Some sceneId =>
      match List.find (fun s => String.eqb (Scene.id s) sceneId)
                      (Script.scenes (script st)) with
      | Some s => nonEmpty (Scene.storyboardUrl s)
      | None => None
      end
  | None => None
  end.

(** ** Vocabulary of the further properties *)

(** What a duration edit, an image or a video leave alone in a scene. *)
Definition sceneIdentity (s : Scene.t) : string * Z * string * string :=
  (Scene.id s, Scene.number s, Scene.slugline s, Scene.description s).

(** What every handler but [updateSceneDuration] leaves alone in a clip. *)
Definition clipPlace (c : Clip.t) : string * float * option string :=
  (Clip.id c, Clip.startTime c, Clip.sceneId c).

(** The shape of every clip [addToTimeline] has built. *)
Definition sceneClipShape (c : Clip.t) : Prop :=
  Clip.trackId c = 1 /\ Clip.type c = ClipVideo /\
  Clip.color c = "#06b6d4" /\
  (exists sceneId, Clip.sceneId c = Some sceneId).

(** The timeline as the component keeps it: the three tracks of the
    initial state, clips on the first one only. *)
Definition timelineShape (st : AppState) : Prop :=
  exists clips,
    tracks st = [ Track.mk 1 "Video 1" TrackVideo clips;
                  Track.mk 2 "Video 2" TrackVideo [];
                  Track.mk 3 "Audio 1" TrackAudio [] ] /\
    Forall sceneClipShape clips.

(** The reply of a successful analysis. *)
Definition isFulfilledParse (e : Event) : bool :=
  match e with
  | Settle _ (ParseAnswer (Fulfilled _) _) => true
  | _ => false
  end.

Definition isDurationEdit (e : Event) : bool :=
  match e with
  | ChangeDuration _ _ => true
  | _ => false
  end.

(** Every clip starts at the start time plus the duration of the clip
    before it, the first at zero. *)
Definition contiguous (clips : list Clip.t) : Prop :=
  map Clip.startTime clips
  = startsFrom 0%float (map Clip.duration clips).

(** The scenes of one id have one duration, and every clip linked to that
    id has it too. *)
Definition durationsAgree (st : AppState) : Prop :=
  (forall s s', In s (Script.scenes (script st)) ->
     In s' (Script.scenes (script st)) ->
     Scene.id s = Scene.id s' -> Scene.duration s = Scene.duration s') /\
  (forall s t c, In s (Script.scenes (script st)) ->
     In t (tracks st) -> In c (Track.clips t) ->
     Clip.sceneId c = Some (Scene.id s) ->
     Clip.duration c = Scene.duration s).

Definition isParseJob (j : Job) : bool :=
  match j with
  | AwaitParse => true
  | _ => false
  end.

(** What the handlers other than [parseScript] leave alone: the parsing
    flag and the pending analyses. *)
Definition keepsParsing (f : World -> World) : Prop :=
  forall w,
    isParsing (app (f w)) = isParsing (app w) /\
    countJobs isParseJob (jobs (f w)) = countJobs isParseJob (jobs w).

(** The parsing flag is set exactly while one analysis is pending. *)
Definition parsingFlagCountsJobs (w : World) : Prop :=
  countJobs isParseJob (jobs w)
  = if isParsing (app w) then 1%nat else 0%nat.

(** A call of [generateVeoVideo] for [sceneId] that has set the video flag
    and has not finished. *)
Definition isVideoJob (sceneId : string) (j : Job) : bool :=
  match j with
  | AwaitVideos scene | AwaitPoll scene | AwaitFetch scene =>
      String.eqb (Scene.id scene) sceneId
  | _ => false
  end.

(** The calls of [generateVeoVideo] for [sceneId] that have set the video
    flag and have not finished. *)
Definition videoJobs (sceneId : string) (w : World) : nat :=
  countJobs (isVideoJob sceneId) (jobs w).

(** The three texts the video flag of a scene can carry. *)
Definition veoStateKnown (v : VeoGenerationState) : Prop :=
  v = mkVeo true "Initializing Veo..." \/
  v = mkVeo true "Generating video..." \/
  v = mkVeo false "".

(** Every video flag holds one of the three known values, and behind every
    set video flag, but for the scene id [skip], a video job is pending. *)
Definition veoFlagsBackedBut (skip : option string) (w : World) : Prop :=
  (forall sceneId v, veoState (app w) !! sceneId = Some v -> veoStateKnown v) /\
  (forall sceneId, skip <> Some sceneId ->
     veoBusy sceneId (app w) = true -> (1 <= videoJobs sceneId w)%nat).

Definition veoFlagsBacked (w : World) : Prop := veoFlagsBackedBut None w.

(** * Properties *)

Local Open Scope list_scope.

(** ** Comparisons of binary64 numbers *)

Lemma SFcompare_refl (x : spec_float) :
  x <> S754_nan -> SFcompare x x = Some Eq.
Proof.
  destruct x as [s|s| |s m e]; intros Hx; try congruence.
  - reflexivity.
  - destruct s; reflexivity.
  - simpl. rewrite Z.compare_refl.
    change (PosDef.Pos.compare_cont Eq m m) with (Pos.compare m m).
    rewrite Pos.compare_refl. destruct s; reflexivity.
Qed.

Lemma Prim2SF_zero : Prim2SF 0%float = S754_zero false.
Proof. reflexivity. Qed.

(** A number above zero is not NaN, passes [val >= 0] and is [===] to
    itself. *)
Lemma positive_number (d : float) :
  (0 <? d)%float = true ->
  isNaN d = false /\ (0 <=? d)%float = true /\ (d =? d)%float = true.
Proof.
  intros H. unfold isNaN, is_nan.
  rewrite FloatAxioms.ltb_spec in H.
  rewrite FloatAxioms.leb_spec, FloatAxioms.eqb_spec.
  rewrite Prim2SF_zero in *. unfold SFltb, SFleb, SFeqb in *.
  destruct (Prim2SF d) as [s|s| |s m e] eqn:E; try discriminate.
  - destruct s; try discriminate. auto.
  - rewrite SFcompare_refl by discriminate.
    destruct s; try discriminate. auto.
Qed.

Lemma negative_number (d : float) :
  (d <? 0)%float = true -> (0 <=? d)%float = false.
Proof.
  intros H. rewrite FloatAxioms.ltb_spec in H.
  rewrite FloatAxioms.leb_spec.
  rewrite Prim2SF_zero in *. unfold SFltb, SFleb in *.
  destruct (Prim2SF d) as [s|s| |s m e] eqn:E; simpl in *; try discriminate.
  - destruct s; try discriminate. auto.
  - destruct s; try discriminate. auto.
Qed.

(** ** updateSceneDuration *)

Lemma linkedTo_true (sceneId : string) (c : Clip.t) :
  linkedTo sceneId c = true <-> Clip.sceneId c = Some sceneId.
Proof.
  unfold linkedTo. destruct (Clip.sceneId c) as [x|].
  - rewrite String.eqb_eq. split; congruence.
  - split; discriminate.
Qed.

Lemma updateSceneDuration_tracks (sceneId : string) (d : float)
  (st : AppState) :
  tracks (updateSceneDuration sceneId d st)
  = map (fun track =>
      Track.with_clips
        (map (fun clip => if linkedTo sceneId clip
                          then Clip.with_duration d clip else clip)
             (Track.clips track)) track) (tracks st).
Proof. reflexivity. Qed.

Lemma updateSceneDuration_scenes (sceneId : string) (d : float)
  (st : AppState) :
  Script.scenes (script (updateSceneDuration sceneId d st))
  = map (fun s => if String.eqb (Scene.id s) sceneId
                  then Scene.with_duration d s else s)
        (Script.scenes (script st)).
Proof. reflexivity. Qed.








(** ** The duration input of a scene card *)

Lemma onDurationChange_rejected (scene : Scene.t) (val : float)
  (st : AppState) :
  (val <? 0)%float = true \/ isNaN val = true ->
  onDurationChange scene val st = st.
Proof.
  unfold onDurationChange. intros [H|H].
  - rewrite (negative_number val H), andb_false_r. reflexivity.
  - rewrite H. reflexivity.
Qed.

Lemma onDurationChange_accepted (scene : Scene.t) (val : float)
  (st : AppState) :
  (0 <? val)%float = true ->
  onDurationChange scene val st = updateSceneDuration (Scene.id scene) val st.
Proof.
  unfold onDurationChange. intros H.
  destruct (positive_number val H) as (-> & -> & _). reflexivity.
Qed.

Lemma onDurationChange_cases (scene : Scene.t) (val : float)
  (st : AppState) :
  onDurationChange scene val st = st \/
  (0 <=? val)%float = true /\
  onDurationChange scene val st = updateSceneDuration (Scene.id scene) val st.
Proof.
  unfold onDurationChange.
  destruct (isNaN val); simpl; [left; reflexivity|].
  destruct (0 <=? val)%float; [right|left]; auto.
Qed.

Lemma card_lookup (i : nat) (w : World) (scene : Scene.t) :
  card i w = Some scene ->
  activeTab (app w) = TabStoryboard /\
  Script.scenes (script (app w)) !! i = Some scene.
Proof.
  unfold card. destruct (activeTab (app w)); try discriminate. auto.
Qed.

(** C4, as the code has it. For the scene of a rendered card: a value below
    zero, or NaN, is dropped without any trace (no state cell changes,
    nothing is shown or logged); a value above zero becomes the duration of
    that scene; and no edit stores a value that fails [val >= 0]. *)
Theorem duration_edit_guard (w : World) (i : nat) (scene : Scene.t)
  (val : float) :
  card i w = Some scene ->
  ((val <? 0)%float = true \/ isNaN val = true ->
     step w (ChangeDuration i val) = Some w) /\
  ((0 <? val)%float = true ->
     step w (ChangeDuration i val)
     = Some (onApp (updateSceneDuration (Scene.id scene) val) w) /\
     Script.scenes
       (script (updateSceneDuration (Scene.id scene) val (app w))) !! i
     = Some (Scene.with_duration val scene)) /\
  (forall w', step w (ChangeDuration i val) = Some w' ->
     (forall s, In s (Script.scenes (script (app w))) ->
        (0 <=? Scene.duration s)%float = true) ->
     forall s, In s (Script.scenes (script (app w'))) ->
        (0 <=? Scene.duration s)%float = true).
Proof.
  intros Hcard. destruct (card_lookup i w scene Hcard) as [_ Hi].
  split; [|split].
  - intros H. unfold step. rewrite Hcard. unfold onApp.
    rewrite (onDurationChange_rejected scene val (app w) H).
    destruct w; reflexivity.
  - intros H. unfold step. rewrite Hcard. unfold onApp.
    rewrite (onDurationChange_accepted scene val (app w) H).
    split; [reflexivity|].
    rewrite updateSceneDuration_scenes.
    change (map ?f ?l) with (f <$> l).
    rewrite list_lookup_fmap, Hi. simpl.
    rewrite String.eqb_refl. reflexivity.
  - intros w' Hstep Hpos s Hs. unfold step in Hstep.
    rewrite Hcard in Hstep. injection Hstep as <-.
    unfold onApp in Hs. cbn [app] in Hs.
    destruct (onDurationChange_cases scene val (app w)) as [E|[Hval E]];
      rewrite E in Hs; [auto|].
    rewrite updateSceneDuration_scenes in Hs.
    apply in_map_iff in Hs as (s0 & <- & Hs0).
    destruct (String.eqb (Scene.id s0) (Scene.id scene)); auto.
Qed.

Lemma duration_edit_guard_witness :
  card 0 (after parsedTrace) = Some scene0 /\
  step (after parsedTrace) (ChangeDuration 0 (-5)%float)
  = Some (after parsedTrace) /\
  Script.scenes
    (script (updateSceneDuration "s0" 8%float (app (after parsedTrace)))) !! 0%nat
  = Some (Scene.with_duration 8%float scene0).
Proof.
  assert (Hcard : card 0 (after parsedTrace) = Some scene0)
    by (vm_compute; reflexivity).
  split; [exact Hcard|]. split.
  - apply (proj1 (duration_edit_guard _ 0 scene0 (-5)%float Hcard)).
    left. reflexivity.
  - apply (proj1 (proj2 (duration_edit_guard _ 0 scene0 8%float Hcard))).
    reflexivity.
Defined.

(** C4 as stated fails at the value 0, typed into the first card after
    [parsedTrace]: the scene of 4 seconds gets the duration 0, and nothing
    is shown or logged.  At -5 the edit is dropped, again without a trace. *)
Lemma zero_duration_is_stored :
  (0 <=? 0)%float = true /\
  map Scene.duration (Script.scenes (script (app (after parsedTrace))))
  = [4%float; 6%float; 5%float] /\
  option_map (fun w' =>
      (map Scene.duration (Script.scenes (script (app w'))),
       alerts w', console w'))
    (step (after parsedTrace) (ChangeDuration 0 0%float))
  = Some ([0%float; 6%float; 5%float], [], []) /\
  step (after parsedTrace) (ChangeDuration 0 (-5)%float)
  = Some (after parsedTrace) /\
  alerts (after parsedTrace) = [] /\ console (after parsedTrace) = [].
Proof. vm_compute. repeat split; reflexivity. Qed.

(** ** Reachable worlds *)

Lemma run_reachable (es : list Event) (w w' : World) :
  reachable w -> run es w = Some w' -> reachable w'.
Proof.
  revert w. induction es as [|e es IH]; intros w Hw Hrun; simpl in Hrun.
  - congruence.
  - destruct (step w e) as [w1|] eqn:E; [|discriminate].
    eapply IH; [|exact Hrun]. eapply reachable_step; eauto.
Qed.

Lemma after_reachable (es : list Event) :
  is_Some (run es initialWorld) -> reachable (after es).
Proof.
  intros [w Hw]. unfold after. rewrite Hw. simpl.
  eapply run_reachable; [apply reachable_init|exact Hw].
Qed.

(** Case analysis on the branches of a handler. *)
Ltac branches :=
  repeat match goal with
    | |- context [match ?x with _ => _ end] => destruct x
    end.

Lemma keySettled_tracks r : keepsTracks (keySettled r).
Proof. intros w. unfold keySettled. branches; reflexivity. Qed.

Lemma parseScript_tracks : keepsTracks parseScript.
Proof. intros w. unfold parseScript. branches; reflexivity. Qed.

Lemma parseSettled_tracks r ids : keepsTracks (parseSettled r ids).
Proof. intros w. unfold parseSettled. branches; reflexivity. Qed.

Lemma generateStoryboardImage_tracks sceneId description :
  keepsTracks (generateStoryboardImage sceneId description).
Proof. intros w. reflexivity. Qed.

Lemma imageSettled_tracks sceneId r : keepsTracks (imageSettled sceneId r).
Proof. intros w. unfold imageSettled. branches; reflexivity. Qed.

Lemma veoRequest_tracks scene : keepsTracks (veoRequest scene).
Proof. intros w. unfold veoRequest. branches; reflexivity. Qed.

Lemma generateVeoVideo_tracks scene : keepsTracks (generateVeoVideo scene).
Proof.
  intros w. unfold generateVeoVideo.
  destruct (negb (hasPaidKey (app w))); [reflexivity|].
  apply veoRequest_tracks.
Qed.

Lemma veoKeySettled_tracks scene sel recheck :
  keepsTracks (veoKeySettled scene sel recheck).
Proof.
  intros w. unfold veoKeySettled.
  destruct sel as [| |hasKey]; try reflexivity.
  destruct recheck as [[|]|]; try reflexivity.
  rewrite veoRequest_tracks. reflexivity.
Qed.

Lemma veoPolling_tracks scene operation :
  keepsTracks (veoPolling scene operation).
Proof. intros w. unfold veoPolling, veoDone. branches; reflexivity. Qed.

Lemma veoVideosSettled_tracks scene r :
  keepsTracks (veoVideosSettled scene r).
Proof.
  intros w. unfold veoVideosSettled. destruct r; [|reflexivity].
  rewrite veoPolling_tracks. reflexivity.
Qed.

Lemma veoPollSettled_tracks scene r : keepsTracks (veoPollSettled scene r).
Proof.
  intros w. unfold veoPollSettled. destruct r; [|reflexivity].
  apply veoPolling_tracks.
Qed.

Lemma veoFetchSettled_tracks scene r : keepsTracks (veoFetchSettled scene r).
Proof. intros w. unfold veoFetchSettled. destruct r; reflexivity. Qed.

Lemma resume_tracks (j : Job) (r : Reply) (w w' : World) :
  resume j r w = Some w' -> tracks (app w') = tracks (app w).
Proof.
  destruct j, r; simpl; intros H; try discriminate; injection H as <-.
  - apply keySettled_tracks.
  - apply keySettled_tracks.
  - apply parseSettled_tracks.
  - apply imageSettled_tracks.
  - apply veoKeySettled_tracks.
  - apply veoVideosSettled_tracks.
  - apply veoPollSettled_tracks.
  - apply veoFetchSettled_tracks.
Qed.

Lemma updateSceneDuration_track_ids sceneId d st :
  map Track.id (tracks (updateSceneDuration sceneId d st))
  = map Track.id (tracks st).
Proof.
  rewrite updateSceneDuration_tracks, map_map. apply map_ext. reflexivity.
Qed.

Lemma addToTimeline_track_ids scene newId st :
  map Track.id (tracks (addToTimeline scene newId st))
  = map Track.id (tracks st).
Proof.
  unfold addToTimeline. simpl. rewrite map_map. apply map_ext.
  intros t. destruct (Track.id t =? 1); reflexivity.
Qed.

Lemma step_track_ids (w : World) (e : Event) (w' : World) :
  step w e = Some w' ->
  map Track.id (tracks (app w')) = map Track.id (tracks (app w)).
Proof.
  destruct e; unfold step; intros H.
  - injection H as <-. reflexivity.
  - destruct (hasPaidKey (app w)); [discriminate|]. injection H as <-.
    reflexivity.
  - destruct (activeTab (app w)); try discriminate. injection H as <-.
    reflexivity.
  - destruct (activeTab (app w)); try discriminate.
    destruct (isParsing (app w)); injection H as <-; [reflexivity|].
    rewrite parseScript_tracks. reflexivity.
  - destruct (card i w) as [scene|]; [|discriminate]. injection H as <-.
    unfold onApp. cbn [app].
    destruct (onDurationChange_cases scene val (app w)) as [E|[_ E]];
      rewrite E; [reflexivity|apply updateSceneDuration_track_ids].
  - destruct (card i w) as [scene|]; [|discriminate].
    destruct (imageBusy _ _); injection H as <-; reflexivity.
  - destruct (card i w) as [scene|]; [|discriminate].
    destruct (veoBusy _ _); injection H as <-; [reflexivity|].
    rewrite generateVeoVideo_tracks. reflexivity.
  - destruct (card i w) as [scene|]; [|discriminate]. injection H as <-.
    apply addToTimeline_track_ids.
  - destruct (jobs w !! k) as [j|]; [|discriminate].
    apply resume_tracks in H. rewrite H. reflexivity.
Qed.

(** The three tracks of the initial state are the tracks for ever. *)
Lemma reachable_track_ids (w : World) :
  reachable w -> map Track.id (tracks (app w)) = [1; 2; 3].
Proof.
  induction 1 as [|w e w' _ IH Hstep]; [reflexivity|].
  rewrite (step_track_ids w e w' Hstep). exact IH.
Qed.

(** ** addToTimeline *)

Lemma reachable_three_tracks (w : World) :
  reachable w ->
  exists t1 t2 t3,
    tracks (app w) = [t1; t2; t3] /\
    Track.id t1 = 1 /\ Track.id t2 = 2 /\ Track.id t3 = 3.
Proof.
  intros Hw. apply reachable_track_ids in Hw.
  destruct (tracks (app w)) as [|t1 [|t2 [|t3 [|t4 l]]]]; try discriminate.
  injection Hw as H1 H2 H3. exists t1, t2, t3. auto.
Qed.

Lemma addToTimeline_three_tracks (scene : Scene.t) (newId : string)
  (st : AppState) (t1 t2 t3 : Track.t) :
  tracks st = [t1; t2; t3] ->
  Track.id t1 = 1 -> Track.id t2 = 2 -> Track.id t3 = 3 ->
  trackClips 1 st = Track.clips t1 /\
  tracks (addToTimeline scene newId st)
  = [ Track.with_clips
        (Track.clips t1 ++ [sceneClip scene newId (endOf (Track.clips t1))])
        t1; t2; t3 ] /\
  trackClips 1 (addToTimeline scene newId st)
  = Track.clips t1 ++ [sceneClip scene newId (endOf (Track.clips t1))].
Proof.
  intros Ht H1 H2 H3.
  unfold trackClips, addToTimeline. cbn [tracks setTracks setActiveTab].
  rewrite Ht. cbn [List.find map]. rewrite H1, H2, H3. cbn.
  rewrite H1. cbn. auto.
Qed.

Lemma step_addToTimeline (w : World) (i : nat) (newId : string)
  (w' : World) :
  step w (ClickAddToTimeline i newId) = Some w' ->
  exists scene,
    card i w = Some scene /\ w' = onApp (addToTimeline scene newId) w.
Proof.
  unfold step. destruct (card i w) as [scene|]; [|discriminate].
  intros H. injection H as <-. eauto.
Qed.

Lemma endOf_snoc (clips : list Clip.t) (c : Clip.t) :
  endOf (clips ++ [c]) = (Clip.startTime c + Clip.duration c)%float.
Proof. unfold endOf. rewrite last_snoc. reflexivity. Qed.

Lemma addScenes_startTimes (adds : list (Scene.t * string)) (st : AppState) :
  map Track.id (tracks st) = [1; 2; 3] ->
  map Clip.startTime (trackClips 1 (addScenes adds st))
  = map Clip.startTime (trackClips 1 st)
    ++ startsFrom (endOf (trackClips 1 st))
         (map (fun a => Scene.duration (fst a)) adds).
Proof.
  revert st. induction adds as [|[scene newId] adds IH]; intros st Hids.
  - simpl. rewrite app_nil_r. reflexivity.
  - cbn [addScenes fold_left fst snd].
    fold (addScenes adds (addToTimeline scene newId st)).
    rewrite IH by (rewrite addToTimeline_track_ids; exact Hids).
    destruct (tracks st) as [|t1 [|t2 [|t3 [|t4 l]]]] eqn:Ht;
      try discriminate.
    injection Hids as H1 H2 H3.
    destruct (addToTimeline_three_tracks scene newId st t1 t2 t3
                Ht H1 H2 H3) as (E & _ & E').
    rewrite E, E', endOf_snoc, map_app, <- app_assoc. reflexivity.
Qed.

(** C2. In every reachable world, whatever the scene and the id drawn, the
    clip [addToTimeline] appends to track 1 starts where the last clip of
    that track ends (its start time plus its duration), and at 0 on an
    empty track; so for every sequence of scenes added one after the other
    the new start times are the running sums of the durations from the end
    of the track.  Scenario A: scenes of 4, 6 and 5 seconds added in order
    start at 0, 4 and 10. *)
Theorem addToTimeline_sequential (w : World) :
  reachable w ->
  (forall i newId w',
     step w (ClickAddToTimeline i newId) = Some w' ->
     exists c,
       trackClips 1 (app w') = trackClips 1 (app w) ++ [c] /\
       Clip.trackId c = 1 /\
       Clip.startTime c = endOf (trackClips 1 (app w)) /\
       (trackClips 1 (app w) = [] -> Clip.startTime c = 0%float)) /\
  (forall adds,
     map Clip.startTime (trackClips 1 (addScenes adds (app w)))
     = map Clip.startTime (trackClips 1 (app w))
       ++ startsFrom (endOf (trackClips 1 (app w)))
            (map (fun a => Scene.duration (fst a)) adds)) /\
  option_map (fun a => map Clip.startTime (trackClips 1 (app a)))
             (run scenarioA initialWorld)
  = Some [0%float; 4%float; 10%float].
Proof.
  intros Hw. split; [|split; [|vm_compute; reflexivity]].
  - intros i newId w' Hstep.
    destruct (step_addToTimeline w i newId w' Hstep) as (scene & _ & ->).
    destruct (reachable_three_tracks w Hw)
      as (t1 & t2 & t3 & Ht & H1 & H2 & H3).
    destruct (addToTimeline_three_tracks scene newId (app w) t1 t2 t3
                Ht H1 H2 H3) as (E & _ & E').
    exists (sceneClip scene newId (endOf (Track.clips t1))).
    cbn [app onApp]. rewrite E, E'. repeat split.
    intros ->. reflexivity.
  - intros adds. apply addScenes_startTimes, reachable_track_ids, Hw.
Qed.

Lemma addToTimeline_sequential_witness :
  reachable (after parsedTrace) /\
  (exists c,
     trackClips 1 (app (after (parsedTrace ++ [ClickAddToTimeline 0 "c0"])))
     = trackClips 1 (app (after parsedTrace)) ++ [c] /\
     Clip.trackId c = 1 /\
     Clip.startTime c = endOf (trackClips 1 (app (after parsedTrace))) /\
     (trackClips 1 (app (after parsedTrace)) = [] ->
      Clip.startTime c = 0%float)) /\
  map Clip.startTime
    (trackClips 1 (addScenes [(scene0, "c0"); (scene1, "c1")]
                     (app (after parsedTrace))))
  = map Clip.startTime (trackClips 1 (app (after parsedTrace)))
    ++ startsFrom (endOf (trackClips 1 (app (after parsedTrace))))
         [4%float; 6%float].
Proof.
  assert (Hw : reachable (after parsedTrace))
    by (apply after_reachable; vm_compute; eauto).
  assert (Hstep : step (after parsedTrace) (ClickAddToTimeline 0 "c0")
                  = Some (after (parsedTrace ++ [ClickAddToTimeline 0 "c0"])))
    by (vm_compute; reflexivity).
  destruct (addToTimeline_sequential (after parsedTrace) Hw)
    as (H1 & H2 & _).
  split; [exact Hw|]. split; [exact (H1 0%nat "c0" _ Hstep)|].
  exact (H2 [(scene0, "c0"); (scene1, "c1")]).
Defined.

Lemma number_eqb_refl (d : float) :
  isNaN d = false -> (d =? d)%float = true.
Proof.
  unfold isNaN, is_nan. destruct (d =? d)%float; [reflexivity|discriminate].
Qed.

(** C9. In every reachable world, the clip that [addToTimeline] appends for
    the scene of a card carries that scene's id as [sceneId] and that
    scene's duration; the scene itself is left in the scene list, so
    [clip.duration] equals [scene.duration] at clip creation (and the two
    are [===] unless the duration is NaN). *)
Theorem addToTimeline_links_scene (w : World) (i : nat) (newId : string)
  (scene : Scene.t) (w' : World) :
  reachable w ->
  card i w = Some scene ->
  step w (ClickAddToTimeline i newId) = Some w' ->
  exists c,
    last (trackClips 1 (app w')) = Some c /\
    Clip.sceneId c = Some (Scene.id scene) /\
    Clip.duration c = Scene.duration scene /\
    Script.scenes (script (app w')) !! i = Some scene /\
    (isNaN (Scene.duration scene) = false ->
     (Clip.duration c =? Scene.duration scene)%float = true).
Proof.
  intros Hw Hcard Hstep.
  destruct (step_addToTimeline w i newId w' Hstep) as (scene' & Hcard' & ->).
  assert (scene' = scene) as -> by congruence.
  destruct (reachable_three_tracks w Hw) as (t1 & t2 & t3 & Ht & H1 & H2 & H3).
  destruct (addToTimeline_three_tracks scene newId (app w) t1 t2 t3
              Ht H1 H2 H3) as (_ & _ & E').
  exists (sceneClip scene newId (endOf (Track.clips t1))).
  cbn [app onApp]. rewrite E', last_snoc.
  repeat split.
  - apply (card_lookup i w scene Hcard).
  - apply number_eqb_refl.
Qed.

Lemma addToTimeline_links_scene_witness :
  reachable (after parsedTrace) /\
  card 0 (after parsedTrace) = Some scene0 /\
  step (after parsedTrace) (ClickAddToTimeline 0 "c0")
  = Some (after (parsedTrace ++ [ClickAddToTimeline 0 "c0"])) /\
  exists c,
    last (trackClips 1
            (app (after (parsedTrace ++ [ClickAddToTimeline 0 "c0"]))))
    = Some c /\
    Clip.sceneId c = Some "s0" /\
    Clip.duration c = 4%float /\
    Script.scenes
      (script (app (after (parsedTrace ++ [ClickAddToTimeline 0 "c0"])))) !! 0%nat
    = Some scene0 /\
    (isNaN 4%float = false -> (Clip.duration c =? 4)%float = true).
Proof.
  assert (Hw : reachable (after parsedTrace))
    by (apply after_reachable; vm_compute; eauto).
  assert (Hcard : card 0 (after parsedTrace) = Some scene0)
    by (vm_compute; reflexivity).
  assert (Hstep : step (after parsedTrace) (ClickAddToTimeline 0 "c0")
                  = Some (after (parsedTrace ++ [ClickAddToTimeline 0 "c0"])))
    by (vm_compute; reflexivity).
  split; [exact Hw|]. split; [exact Hcard|]. split; [exact Hstep|].
  exact (addToTimeline_links_scene _ 0 "c0" scene0 _ Hw Hcard Hstep).
Defined.



(** ** parseScript *)

Lemma newScenes_length (ids : nat -> string) (n : nat)
  (parsed : list RawScene) :
  length (newScenes ids n parsed) = length parsed.
Proof.
  revert n. induction parsed as [|s rest IH]; intros n; simpl;
    [reflexivity|]. rewrite IH. reflexivity.
Qed.

Lemma step_settle (w : World) (k : nat) (j : Job) (r : Reply) :
  jobs w !! k = Some j ->
  step w (Settle k r) = resume j r (dropJob k w).
Proof. intros H. unfold step. rewrite H. reflexivity. Qed.

(** C8. When the request of [parseScript] fails (the [try] block throws),
    the handler ends there: the script with its scene list is the one held
    before, as are the tracks; the failure is logged and shown, and the
    parsing flag is cleared.  Whatever the reply, the scene list afterwards
    is either the one held before or the complete list built from the
    reply, one scene per parsed element.  Starting an analysis does not
    touch the script either. *)
Theorem parseScript_failure_keeps_scenes (w : World) (k : nat) (e : string)
  (ids : nat -> string) :
  jobs w !! k = Some AwaitParse ->
  (exists w',
     step w (Settle k (ParseAnswer (Rejected e) ids)) = Some w' /\
     script (app w') = script (app w) /\
     tracks (app w') = tracks (app w) /\
     isParsing (app w') = false /\
     jobs w' = delete k (jobs w) /\
     alerts w' = alerts w ++ ["Failed to parse script. See console."] /\
     console w' = console w ++ [("Failed to parse script", e)]) /\
  (forall r, exists w',
     step w (Settle k (ParseAnswer r ids)) = Some w' /\
     (Script.scenes (script (app w')) = Script.scenes (script (app w)) \/
      exists parsed,
        r = Fulfilled parsed /\
        Script.scenes (script (app w')) = newScenes ids 0 parsed /\
        length (Script.scenes (script (app w'))) = length parsed)) /\
  (forall w', step w ClickAnalyze = Some w' -> script (app w') = script (app w)).
Proof.
  intros Hk. split; [|split].
  - rewrite (step_settle w k AwaitParse _ Hk). eexists.
    split; [reflexivity|]. repeat split.
  - intros r. rewrite (step_settle w k AwaitParse _ Hk). eexists.
    split; [reflexivity|]. destruct r as [parsed|e'].
    + right. exists parsed. repeat split. apply newScenes_length.
    + left. reflexivity.
  - intros w'. unfold step. destruct (activeTab (app w)); try discriminate.
    destruct (isParsing (app w)); intros H; injection H as <-;
      [reflexivity|].
    unfold parseScript. branches; reflexivity.
Qed.

Lemma parseScript_failure_keeps_scenes_witness :
  jobs (after reparseTrace) !! 1%nat = Some AwaitParse /\
  map Scene.id (Script.scenes (script (app (after reparseTrace))))
  = ["s0"; "s1"; "s2"] /\
  exists w',
    step (after reparseTrace)
         (Settle 1 (ParseAnswer (Rejected "503") sampleIds)) = Some w' /\
    script (app w') = script (app (after reparseTrace)) /\
    tracks (app w') = tracks (app (after reparseTrace)) /\
    isParsing (app w') = false /\
    jobs w' = delete 1%nat (jobs (after reparseTrace)) /\
    alerts w'
    = alerts (after reparseTrace) ++ ["Failed to parse script. See console."] /\
    console w'
    = console (after reparseTrace) ++ [("Failed to parse script", "503")].
Proof.
  assert (Hk : jobs (after reparseTrace) !! 1%nat = Some AwaitParse)
    by (vm_compute; reflexivity).
  split; [exact Hk|]. split; [vm_compute; reflexivity|].
  exact (proj1 (parseScript_failure_keeps_scenes _ 1 "503" sampleIds Hk)).
Defined.

(** ** generateStoryboardImage *)

(** C7, as the code has it. When the request of an image job fails, the
    script (every scene with its image and video references, absent ones
    included) and the tracks are the ones held before; the job's flag
    [generatingImages[sceneId]] becomes [false]; the error goes to the
    console and nowhere else: no alert, and the state cells are the same
    whatever the error was.  Starting the job does not touch the script
    either. *)
Theorem image_failure_keeps_artifacts (w : World) (k : nat)
  (sceneId description e : string) :
  jobs w !! k = Some (AwaitImage sceneId description) ->
  (exists w',
     step w (Settle k (ImageAnswer (Rejected e))) = Some w' /\
     script (app w') = script (app w) /\
     tracks (app w') = tracks (app w) /\
     generatingImages (app w') !! sceneId = Some false /\
     veoState (app w') = veoState (app w) /\
     jobs w' = delete k (jobs w) /\
     alerts w' = alerts w /\
     console w' = console w ++ [("Image gen failed", e)] /\
     forall e2, exists w2,
       step w (Settle k (ImageAnswer (Rejected e2))) = Some w2 /\
       app w2 = app w') /\
  (forall w0,
     script (app (generateStoryboardImage sceneId description w0))
     = script (app w0)).
Proof.
  intros Hk. split; [|reflexivity].
  rewrite (step_settle w k _ _ Hk). eexists. split; [reflexivity|].
  repeat split.
  - cbn. apply lookup_insert_eq.
  - intros e2. rewrite (step_settle w k _ _ Hk). eexists.
    split; reflexivity.
Qed.

Lemma image_failure_keeps_artifacts_witness :
  jobs (after imageTrace) !! 1%nat
  = Some (AwaitImage "s0" "red emergency lighting") /\
  map Scene.storyboardUrl (Script.scenes (script (app (after imageTrace))))
  = [None; None; None] /\
  exists w',
    step (after imageTrace) (Settle 1 (ImageAnswer (Rejected "503")))
    = Some w' /\
    script (app w') = script (app (after imageTrace)) /\
    tracks (app w') = tracks (app (after imageTrace)) /\
    generatingImages (app w') !! "s0" = Some false /\
    veoState (app w') = veoState (app (after imageTrace)) /\
    jobs w' = delete 1%nat (jobs (after imageTrace)) /\
    alerts w' = alerts (after imageTrace) /\
    console w' = console (after imageTrace) ++ [("Image gen failed", "503")] /\
    forall e2, exists w2,
      step (after imageTrace) (Settle 1 (ImageAnswer (Rejected e2)))
      = Some w2 /\
      app w2 = app w'.
Proof.
  assert (Hk : jobs (after imageTrace) !! 1%nat
               = Some (AwaitImage "s0" "red emergency lighting"))
    by (vm_compute; reflexivity).
  split; [exact Hk|]. split; [vm_compute; reflexivity|].
  exact (proj1 (image_failure_keeps_artifacts _ 1 "s0" _ "503" Hk)).
Defined.

(** C7 as stated fails for the image job of the first scene after
    [imageTrace]: the state cells after the failure "503" are those after
    the failure "quota exceeded", and those after a reply without an image;
    the flag of the scene is [false] in all three, and no alert is shown.
    No state cell holds an error detail. *)
Lemma image_failure_leaves_no_detail :
  option_map app
    (step (after imageTrace) (Settle 1 (ImageAnswer (Rejected "503"))))
  = option_map app
      (step (after imageTrace)
            (Settle 1 (ImageAnswer (Rejected "quota exceeded")))) /\
  option_map app
    (step (after imageTrace) (Settle 1 (ImageAnswer (Rejected "503"))))
  = option_map app
      (step (after imageTrace) (Settle 1 (ImageAnswer (Fulfilled [])))) /\
  option_map (fun w' => (generatingImages (app w') !! "s0", alerts w'))
    (step (after imageTrace) (Settle 1 (ImageAnswer (Rejected "503"))))
  = Some (Some false, []).
Proof. vm_compute. repeat split; reflexivity. Qed.

(** ** One image job per scene *)

Lemma countJobs_app (p : Job -> bool) (l l' : list Job) :
  countJobs p (l ++ l') = (countJobs p l + countJobs p l')%nat.
Proof. induction l as [|j l IH]; simpl; [reflexivity|]. rewrite IH. lia. Qed.

Lemma countJobs_delete (p : Job -> bool) (l : list Job) (k : nat) (j : Job) :
  l !! k = Some j ->
  countJobs p l = ((if p j then 1 else 0) + countJobs p (delete k l))%nat.
Proof.
  revert k. induction l as [|x l IH]; intros [|k] H; simpl in *;
    try discriminate.
  - injection H as ->. reflexivity.
  - rewrite (IH k H). lia.
Qed.

Lemma imageJobs_suspend (sceneId : string) (j : Job) (w : World) :
  isImageJob sceneId j = false ->
  imageJobs sceneId (suspend j w) = imageJobs sceneId w.
Proof.
  intros H. unfold imageJobs, suspend. cbn [jobs].
  rewrite countJobs_app. simpl. rewrite H. lia.
Qed.

Lemma imageJobs_dropJob (sceneId : string) (k : nat) (j : Job) (w : World) :
  jobs w !! k = Some j ->
  imageJobs sceneId w
  = ((if isImageJob sceneId j then 1 else 0)
     + imageJobs sceneId (dropJob k w))%nat.
Proof. intros H. apply countJobs_delete, H. Qed.

(** Closes a frame goal once the branches of the handler are split. *)
Ltac image_frame :=
  intros w sceneId; split;
  [ reflexivity
  | rewrite ?imageJobs_suspend by reflexivity; reflexivity ].

Lemma keySettled_image r : keepsImageJobs (keySettled r).
Proof. unfold keySettled. destruct r; image_frame. Qed.

Lemma parseScript_image : keepsImageJobs parseScript.
Proof.
  intros w sceneId. unfold parseScript.
  destruct (isBlank _); revert w sceneId; image_frame.
Qed.

Lemma parseSettled_image r ids : keepsImageJobs (parseSettled r ids).
Proof. unfold parseSettled. destruct r; image_frame. Qed.

Lemma veoFinally_image scene : keepsImageJobs (veoFinally scene).
Proof. image_frame. Qed.

Lemma veoFailed_image scene e : keepsImageJobs (veoFailed scene e).
Proof. image_frame. Qed.

Lemma veoRequest_image scene : keepsImageJobs (veoRequest scene).
Proof.
  unfold veoRequest. destruct (negb (truthy (Scene.storyboardUrl scene)));
    image_frame.
Qed.

Lemma generateVeoVideo_image scene : keepsImageJobs (generateVeoVideo scene).
Proof.
  intros w sceneId. unfold generateVeoVideo.
  destruct (negb (hasPaidKey (app w))).
  - revert w sceneId. image_frame.
  - apply veoRequest_image.
Qed.

Lemma veoKeySettled_image scene sel recheck :
  keepsImageJobs (veoKeySettled scene sel recheck).
Proof.
  unfold veoKeySettled. destruct sel as [| |hasKey]; try image_frame.
  destruct recheck as [[|]|]; try image_frame.
  intros w sceneId.
  destruct (veoRequest_image scene (onApp (setHasPaidKey hasKey) w) sceneId)
    as [-> ->]. split; reflexivity.
Qed.

Lemma veoPolling_image scene operation :
  keepsImageJobs (veoPolling scene operation).
Proof.
  unfold veoPolling, veoDone.
  destruct (done_ operation); [destruct (truthy (videoUri operation))|];
    image_frame.
Qed.

Lemma veoVideosSettled_image scene r :
  keepsImageJobs (veoVideosSettled scene r).
Proof.
  unfold veoVideosSettled. destruct r as [operation|e]; [|image_frame].
  intros w sceneId.
  match goal with
  | |- context [veoPolling scene operation ?w1] =>
      destruct (veoPolling_image scene operation w1 sceneId) as [-> ->]
  end.
  split; reflexivity.
Qed.

Lemma veoPollSettled_image scene r : keepsImageJobs (veoPollSettled scene r).
Proof.
  unfold veoPollSettled. destruct r as [operation|e]; [|image_frame].
  apply veoPolling_image.
Qed.

Lemma veoFetchSettled_image scene r : keepsImageJobs (veoFetchSettled scene r).
Proof. unfold veoFetchSettled. destruct r; image_frame. Qed.

Lemma keepsImageJobs_invariant (f : World -> World) (w : World) :
  keepsImageJobs f -> imageFlagsCountJobs w -> imageFlagsCountJobs (f w).
Proof.
  intros Hf Hw sceneId. destruct (Hf w sceneId) as [-> ->]. apply Hw.
Qed.

Lemma imageBusy_insert (sceneId s : string) (b : bool) (st : AppState) :
  imageBusy sceneId (setGeneratingImages (fun prev => <[s := b]> prev) st)
  = if String.eqb s sceneId then b else imageBusy sceneId st.
Proof.
  unfold imageBusy. cbn [generatingImages setGeneratingImages].
  destruct (String.eqb s sceneId) eqn:E.
  - apply String.eqb_eq in E as ->. rewrite lookup_insert_eq. reflexivity.
  - apply String.eqb_neq in E. rewrite lookup_insert_ne by exact E.
    reflexivity.
Qed.

Lemma imageSettled_flags (s : string) (r : Settled (list Part)) (w : World) :
  generatingImages (app (imageSettled s r w))
  = <[s := false]> (generatingImages (app w)) /\
  jobs (imageSettled s r w) = jobs w.
Proof.
  unfold imageSettled. destruct r as [parts|e]; [|split; reflexivity].
  destruct (negb (String.eqb (imageUrlOf parts) "")); split; reflexivity.
Qed.

Lemma imageSettled_busy (sceneId s : string) (r : Settled (list Part))
  (w : World) :
  imageBusy sceneId (app (imageSettled s r w))
  = if String.eqb s sceneId then false else imageBusy sceneId (app w).
Proof.
  unfold imageBusy at 1. rewrite (proj1 (imageSettled_flags s r w)).
  exact (imageBusy_insert sceneId s false (app w)).
Qed.

Lemma resume_invariant (k : nat) (j : Job) (r : Reply) (w w' : World) :
  jobs w !! k = Some j ->
  imageFlagsCountJobs w ->
  resume j r (dropJob k w) = Some w' ->
  imageFlagsCountJobs w'.
Proof.
  intros Hk Hw Hres.
  assert (Hdrop : (forall sceneId, isImageJob sceneId j = false) ->
                  imageFlagsCountJobs (dropJob k w)).
  { intros Hj sceneId. specialize (Hw sceneId).
    rewrite (imageJobs_dropJob sceneId k j w Hk), Hj in Hw. exact Hw. }
  destruct j, r; simpl in Hres; try discriminate; injection Hres as <-;
    try (apply keepsImageJobs_invariant;
         [ first [ apply keySettled_image | apply parseSettled_image
                 | apply veoKeySettled_image | apply veoVideosSettled_image
                 | apply veoPollSettled_image | apply veoFetchSettled_image ]
         | apply Hdrop; reflexivity ]).
  (* the image job of [sceneId] ends *)
  intros sid. rewrite imageSettled_busy.
  unfold imageJobs. rewrite (proj2 (imageSettled_flags sceneId r _)).
  fold (imageJobs sid (dropJob k w)).
  specialize (Hw sid).
  rewrite (imageJobs_dropJob sid k _ w Hk) in Hw. cbn [isImageJob] in Hw.
  destruct (String.eqb sceneId sid) eqn:E.
  - destruct (imageBusy sid (app w)); lia.
  - exact Hw.
Qed.

Lemma step_invariant (w : World) (e : Event) (w' : World) :
  imageFlagsCountJobs w -> step w e = Some w' -> imageFlagsCountJobs w'.
Proof.
  intros Hw. destruct e; unfold step; intros H.
  - injection H as <-. exact Hw.
  - destruct (hasPaidKey (app w)); [discriminate|]. injection H as <-.
    intros sid. rewrite imageJobs_suspend by reflexivity. apply Hw.
  - destruct (activeTab (app w)); try discriminate. injection H as <-.
    exact Hw.
  - destruct (activeTab (app w)); try discriminate.
    destruct (isParsing (app w)); injection H as <-; [exact Hw|].
    apply keepsImageJobs_invariant; [apply parseScript_image|exact Hw].
  - destruct (card i w) as [scene|]; [|discriminate]. injection H as <-.
    unfold onApp.
    destruct (onDurationChange_cases scene val (app w)) as [E|[_ E]];
      rewrite E; exact Hw.
  - destruct (card i w) as [scene|]; [|discriminate].
    destruct (imageBusy (Scene.id scene) (app w)) eqn:Hbusy;
      injection H as <-; [exact Hw|].
    intros sid. specialize (Hw sid).
    unfold generateStoryboardImage, imageJobs, suspend, onApp.
    cbn [app jobs]. rewrite imageBusy_insert, countJobs_app.
    fold (imageJobs sid w). cbn [countJobs isImageJob].
    destruct (String.eqb (Scene.id scene) sid) eqn:E.
    + apply String.eqb_eq in E as <-. rewrite Hbusy in Hw. lia.
    + rewrite Hw. lia.
  - destruct (card i w) as [scene|]; [|discriminate].
    destruct (veoBusy (Scene.id scene) (app w)); injection H as <-;
      [exact Hw|].
    apply keepsImageJobs_invariant; [apply generateVeoVideo_image|exact Hw].
  - destruct (card i w) as [scene|]; [|discriminate]. injection H as <-.
    exact Hw.
  - destruct (jobs w !! k) as [j|] eqn:Hk; [|discriminate].
    exact (resume_invariant k j r w w' Hk Hw H).
Qed.

Lemma reachable_invariant (w : World) :
  reachable w -> imageFlagsCountJobs w.
Proof.
  induction 1 as [|w e w' _ IH Hstep].
  - intros sid. reflexivity.
  - exact (step_invariant w e w' IH Hstep).
Qed.

(** ** The generate buttons *)

Lemma veoBusy_insert (sceneId s : string) (v : VeoGenerationState)
  (st : AppState) :
  veoBusy sceneId (setVeoState (fun prev => <[s := v]> prev) st)
  = if String.eqb s sceneId then isGenerating v else veoBusy sceneId st.
Proof.
  unfold veoBusy. cbn [veoState setVeoState].
  destruct (String.eqb s sceneId) eqn:E.
  - apply String.eqb_eq in E as ->. rewrite lookup_insert_eq. reflexivity.
  - apply String.eqb_neq in E. rewrite lookup_insert_ne by exact E.
    reflexivity.
Qed.

(** C3, as the code has it. In every reachable world:
    - while the image flag (the video flag) of a scene is set, its generate
      button is disabled, and a click changes nothing at all: no job is
      started, nothing is shown or logged (there is no AlreadyRunning);
    - when an image job ends, with an image, without one or with an error,
      the flag is cleared, no image job of that scene is pending, and the
      next click starts a job and sets the flag again;
    - when a video job ends through [finally], after a failed poll or after
      the fetch, the video flag is cleared, and a click on an enabled video
      button calls [generateVeoVideo];
    - at most one image job per scene id is pending, exactly when the
      scene's image flag is set;
    - the video flag is cleared as well when the request [generateVideos]
      fails, and when an operation, the first or a polled one, is done
      without a video address;
    - the two handlers themselves do not look at the flags: in any world,
      busy or not, [generateStoryboardImage] sets the flag and adds a
      pending image job, and [generateVeoVideo], with a key and a
      storyboard image, sets the flag and adds a pending video job. *)
Theorem generate_buttons_guard (w : World) :
  reachable w ->
  (forall i scene, card i w = Some scene ->
     imageBusy (Scene.id scene) (app w) = true ->
     step w (ClickGenerateImage i) = Some w) /\
  (forall i scene, card i w = Some scene ->
     veoBusy (Scene.id scene) (app w) = true ->
     step w (ClickVeoVideo i) = Some w) /\
  (forall k sceneId description r,
     jobs w !! k = Some (AwaitImage sceneId description) ->
     exists w1,
       step w (Settle k (ImageAnswer r)) = Some w1 /\
       imageBusy sceneId (app w1) = false /\
       imageJobs sceneId w1 = 0%nat /\
       forall i scene, card i w1 = Some scene -> Scene.id scene = sceneId ->
         exists w2,
           step w1 (ClickGenerateImage i) = Some w2 /\
           imageBusy sceneId (app w2) = true /\
           jobs w2 = jobs w1 ++ [AwaitImage sceneId (Scene.description scene)]) /\
  (forall k scene e,
     jobs w !! k = Some (AwaitPoll scene) ->
     exists w1,
       step w (Settle k (OperationAnswer (Rejected e))) = Some w1 /\
       veoBusy (Scene.id scene) (app w1) = false) /\
  (forall k scene r,
     jobs w !! k = Some (AwaitFetch scene) ->
     exists w1,
       step w (Settle k (FetchAnswer r)) = Some w1 /\
       veoBusy (Scene.id scene) (app w1) = false) /\
  (forall i scene, card i w = Some scene ->
     veoBusy (Scene.id scene) (app w) = false ->
     step w (ClickVeoVideo i) = Some (generateVeoVideo scene w)) /\
  (forall sceneId,
     (imageJobs sceneId w <= 1)%nat /\
     (imageJobs sceneId w = 1%nat <-> imageBusy sceneId (app w) = true)) /\
  (forall k scene e,
     jobs w !! k = Some (AwaitVideos scene) ->
     exists w1,
       step w (Settle k (OperationAnswer (Rejected e))) = Some w1 /\
       veoBusy (Scene.id scene) (app w1) = false) /\
  (forall k scene j operation,
     jobs w !! k = Some j ->
     j = AwaitVideos scene \/ j = AwaitPoll scene ->
     done_ operation = true -> truthy (videoUri operation) = false ->
     exists w1,
       step w (Settle k (OperationAnswer (Fulfilled operation))) = Some w1 /\
       veoBusy (Scene.id scene) (app w1) = false) /\
  (forall w0 sceneId description,
     imageBusy sceneId (app (generateStoryboardImage sceneId description w0))
     = true /\
     imageJobs sceneId (generateStoryboardImage sceneId description w0)
     = S (imageJobs sceneId w0)) /\
  (forall w0 scene,
     hasPaidKey (app w0) = true ->
     truthy (Scene.storyboardUrl scene) = true ->
     veoBusy (Scene.id scene) (app (generateVeoVideo scene w0)) = true /\
     videoJobs (Scene.id scene) (generateVeoVideo scene w0)
     = S (videoJobs (Scene.id scene) w0)).
Proof.
  intros Hw. pose proof (reachable_invariant w Hw) as Hinv.
  repeat apply conj.
  - intros i scene Hcard Hbusy. unfold step. rewrite Hcard, Hbusy.
    reflexivity.
  - intros i scene Hcard Hbusy. unfold step. rewrite Hcard, Hbusy.
    reflexivity.
  - intros k sceneId description r Hk.
    rewrite (step_settle w k _ _ Hk). eexists. split; [reflexivity|].
    assert (Hstep : step w (Settle k (ImageAnswer r))
                    = Some (imageSettled sceneId r (dropJob k w)))
      by (rewrite (step_settle w k _ _ Hk); reflexivity).
    pose proof (step_invariant _ _ _ Hinv Hstep sceneId) as Hinv1.
    assert (Hidle : imageBusy sceneId (app (imageSettled sceneId r (dropJob k w)))
                    = false)
      by (rewrite imageSettled_busy, String.eqb_refl; reflexivity).
    rewrite Hidle in Hinv1. repeat split; [exact Hidle|exact Hinv1|].
    intros i scene Hcard <-. unfold step. rewrite Hcard, Hidle.
    eexists. split; [reflexivity|]. split; [|reflexivity].
    unfold generateStoryboardImage, suspend, onApp. cbn [app].
    rewrite imageBusy_insert, String.eqb_refl. reflexivity.
  - intros k scene e Hk. rewrite (step_settle w k _ _ Hk). eexists.
    split; [reflexivity|]. unfold veoPollSettled, veoFailed, veoFinally, onApp.
    cbn [app]. rewrite veoBusy_insert, String.eqb_refl. reflexivity.
  - intros k scene r Hk. rewrite (step_settle w k _ _ Hk). eexists.
    split; [reflexivity|].
    unfold veoFetchSettled, veoFailed, veoFinally, onApp.
    destruct r; cbn [app]; rewrite veoBusy_insert, String.eqb_refl;
      reflexivity.
  - intros i scene Hcard Hbusy. unfold step. rewrite Hcard, Hbusy.
    reflexivity.
  - intros sceneId. rewrite (Hinv sceneId).
    destruct (imageBusy sceneId (app w)); split; try lia;
      split; intros; congruence.
  - intros k scene e Hk. rewrite (step_settle w k _ _ Hk). eexists.
    split; [reflexivity|].
    unfold veoVideosSettled, veoFailed, veoFinally, onApp.
    cbn [app]. rewrite veoBusy_insert, String.eqb_refl. reflexivity.
  - intros k scene j operation Hk Hj Hdone Huri.
    rewrite (step_settle w k _ _ Hk).
    destruct Hj as [->| ->]; (eexists; split; [reflexivity|]);
      unfold veoVideosSettled, veoPollSettled, veoPolling, veoDone;
      rewrite Hdone, Huri; unfold veoFinally, onApp; cbn [app];
      rewrite veoBusy_insert, String.eqb_refl; reflexivity.
  - intros w0 sceneId description. split.
    + unfold generateStoryboardImage, suspend, onApp. cbn [app].
      rewrite imageBusy_insert, String.eqb_refl. reflexivity.
    + unfold generateStoryboardImage, imageJobs, suspend, onApp. cbn [jobs].
      rewrite countJobs_app. cbn [countJobs isImageJob].
      rewrite String.eqb_refl. lia.
  - intros w0 scene Hkey Himg. split.
    + unfold generateVeoVideo, veoRequest. rewrite Hkey, Himg. cbn [negb].
      unfold suspend, onApp. cbn [app].
      rewrite veoBusy_insert, String.eqb_refl. reflexivity.
    + unfold generateVeoVideo, veoRequest. rewrite Hkey, Himg. cbn [negb].
      unfold videoJobs, suspend, onApp. cbn [jobs].
      rewrite countJobs_app. cbn [countJobs isVideoJob].
      rewrite String.eqb_refl. lia.
Qed.

Lemma generate_buttons_guard_witness :
  reachable (after imageTrace) /\
  card 0 (after imageTrace) = Some scene0 /\
  imageBusy "s0" (app (after imageTrace)) = true /\
  step (after imageTrace) (ClickGenerateImage 0) = Some (after imageTrace) /\
  (exists w1,
     step (after imageTrace) (Settle 1 (ImageAnswer (Rejected "503")))
     = Some w1 /\
     imageBusy "s0" (app w1) = false /\
     imageJobs "s0" w1 = 0%nat /\
     forall i scene, card i w1 = Some scene -> Scene.id scene = "s0" ->
       exists w2,
         step w1 (ClickGenerateImage i) = Some w2 /\
         imageBusy "s0" (app w2) = true /\
         jobs w2 = jobs w1 ++ [AwaitImage "s0" (Scene.description scene)]) /\
  (imageJobs "s0" (after imageTrace) <= 1)%nat.
Proof.
  assert (Hw : reachable (after imageTrace))
    by (apply after_reachable; vm_compute; eauto).
  assert (Hcard : card 0 (after imageTrace) = Some scene0)
    by (vm_compute; reflexivity).
  assert (Hbusy : imageBusy (Scene.id scene0) (app (after imageTrace)) = true)
    by (vm_compute; reflexivity).
  assert (Hk : jobs (after imageTrace) !! 1%nat
               = Some (AwaitImage "s0" "red emergency lighting"))
    by (vm_compute; reflexivity).
  destruct (generate_buttons_guard (after imageTrace) Hw)
    as (H1 & _ & H3 & _ & _ & _ & H7 & _).
  split; [exact Hw|]. split; [exact Hcard|]. split; [exact Hbusy|].
  split; [exact (H1 0%nat scene0 Hcard Hbusy)|].
  split; [exact (H3 1%nat "s0" _ (Rejected "503") Hk)|].
  exact (proj1 (H7 "s0")).
Defined.

(** C3 as stated fails for the image button of the first scene after
    [imageTrace], while the image job of that scene is pending: the click
    leaves the world as it is, so nothing is shown, logged or raised. *)
Lemma busy_click_raises_nothing :
  imageBusy "s0" (app (after imageTrace)) = true /\
  jobs (after imageTrace)
  = [AwaitCheckKey; AwaitImage "s0" "red emergency lighting"] /\
  step (after imageTrace) (ClickGenerateImage 0) = Some (after imageTrace) /\
  ~ (exists w', step (after imageTrace) (ClickGenerateImage 0) = Some w'
                /\ signalled (after imageTrace) w').
Proof.
  assert (Hstep : step (after imageTrace) (ClickGenerateImage 0)
                  = Some (after imageTrace)) by (vm_compute; reflexivity).
  repeat split; try (vm_compute; reflexivity).
  intros (w' & Hstep' & Hsig). rewrite Hstep in Hstep'.
  injection Hstep' as <-. destruct Hsig as [H|H]; apply H; reflexivity.
Qed.

(** The video flag is set only after the key request of [generateVeoVideo]
    has been answered.  If the page takes a second click on the same video
    button before that, both calls go on, and two video requests of one
    scene are pending at the same time. *)
Lemma veo_key_request_race :
  option_map (fun w => (jobs w, veoBusy "s0" (app w)))
             (run keyRaceTrace initialWorld)
  = Some ([AwaitCheckKey; AwaitVideos scene0Imaged; AwaitVideos scene0Imaged],
          true).
Proof. vm_compute. reflexivity. Qed.

(** ** generateVeoVideo *)

(** C5, as the code has it. For the scene of a card whose video button is
    enabled:
    - with a paid key selected, the click runs the request proper; without,
      it only suspends on the key request;
    - the request proper, for a scene without a storyboard image (absent or
      empty), shows the alert asking for one and does nothing else: no job,
      no state cell changes; for a scene with an image it sets the scene's
      video flag with the message "Initializing Veo..." and suspends on
      [generateVideos];
    - a key request answered with a selected key goes on to the request
      proper; answered otherwise it ends the call silently: no alert, no
      job, script, tracks and video flags as before;
    - on the way through the key request one state cell does change:
      [hasPaidKey] takes the answer of the request.  So for a scene without
      a storyboard image, a key request answered with a selected key ends
      in the alert with [hasPaidKey] set to the answer and every other
      state cell as before. *)
Theorem veo_needs_storyboard (w : World) (i : nat) (scene : Scene.t) :
  card i w = Some scene ->
  veoBusy (Scene.id scene) (app w) = false ->
  (hasPaidKey (app w) = true ->
     step w (ClickVeoVideo i) = Some (veoRequest scene w)) /\
  (hasPaidKey (app w) = false ->
     step w (ClickVeoVideo i) = Some (suspend (AwaitKey scene) w)) /\
  (forall w1, truthy (Scene.storyboardUrl scene) = false ->
     veoRequest scene w1
     = alert "Please generate a storyboard image first to use as a reference."
             w1) /\
  (forall w1, truthy (Scene.storyboardUrl scene) = true ->
     veoRequest scene w1
     = suspend (AwaitVideos scene)
         (onApp (setVeoState (fun prev =>
            <[Scene.id scene := mkVeo true "Initializing Veo..."]> prev)) w1) /\
     veoBusy (Scene.id scene) (app (veoRequest scene w1)) = true) /\
  (forall w1 k hasKey, jobs w1 !! k = Some (AwaitKey scene) ->
     step w1 (Settle k (VeoKeyAnswer (HasKey hasKey) (Fulfilled true)))
     = Some (veoRequest scene (onApp (setHasPaidKey hasKey) (dropJob k w1)))) /\
  (forall w1 k sel recheck, jobs w1 !! k = Some (AwaitKey scene) ->
     (forall hasKey, sel = HasKey hasKey -> recheck <> Fulfilled true) ->
     exists w2,
       step w1 (Settle k (VeoKeyAnswer sel recheck)) = Some w2 /\
       script (app w2) = script (app w1) /\
       tracks (app w2) = tracks (app w1) /\
       veoState (app w2) = veoState (app w1) /\
       generatingImages (app w2) = generatingImages (app w1) /\
       jobs w2 = delete k (jobs w1) /\
       alerts w2 = alerts w1 /\ console w2 = console w1) /\
  (forall w1 k hasKey, jobs w1 !! k = Some (AwaitKey scene) ->
     truthy (Scene.storyboardUrl scene) = false ->
     exists w2,
       step w1 (Settle k (VeoKeyAnswer (HasKey hasKey) (Fulfilled true)))
       = Some w2 /\
       hasPaidKey (app w2) = hasKey /\
       activeTab (app w2) = activeTab (app w1) /\
       script (app w2) = script (app w1) /\
       tracks (app w2) = tracks (app w1) /\
       isParsing (app w2) = isParsing (app w1) /\
       generatingImages (app w2) = generatingImages (app w1) /\
       veoState (app w2) = veoState (app w1) /\
       jobs w2 = delete k (jobs w1) /\
       alerts w2
       = alerts w1
         ++ ["Please generate a storyboard image first to use as a reference."] /\
       console w2 = console w1) /\
  (forall w1 k sel recheck, jobs w1 !! k = Some (AwaitKey scene) ->
     (forall hasKey, sel = HasKey hasKey -> recheck <> Fulfilled true) ->
     exists w2,
       step w1 (Settle k (VeoKeyAnswer sel recheck)) = Some w2 /\
       hasPaidKey (app w2)
       = match sel with
         | HasKey hasKey => hasKey
         | NoAiStudio | KeyRejected => hasPaidKey (app w1)
         end /\
       activeTab (app w2) = activeTab (app w1) /\
       isParsing (app w2) = isParsing (app w1)).
Proof.
  intros Hcard Hbusy. repeat apply conj.
  - intros Hkey. unfold step. rewrite Hcard, Hbusy.
    unfold generateVeoVideo. rewrite Hkey. reflexivity.
  - intros Hkey. unfold step. rewrite Hcard, Hbusy.
    unfold generateVeoVideo. rewrite Hkey. reflexivity.
  - intros w1 Himg. unfold veoRequest. rewrite Himg. reflexivity.
  - intros w1 Himg. unfold veoRequest. rewrite Himg. cbn [negb].
    split; [reflexivity|]. unfold suspend, onApp. cbn [app].
    rewrite veoBusy_insert, String.eqb_refl. reflexivity.
  - intros w1 k hasKey Hk. rewrite (step_settle w1 k _ _ Hk). reflexivity.
  - intros w1 k sel recheck Hk Hno. rewrite (step_settle w1 k _ _ Hk).
    eexists. split; [reflexivity|]. unfold veoKeySettled.
    destruct sel as [| |hasKey]; try (repeat split; reflexivity).
    specialize (Hno hasKey eq_refl).
    destruct recheck as [[|]|e]; try (repeat split; reflexivity).
    congruence.
  - intros w1 k hasKey Hk Himg. rewrite (step_settle w1 k _ _ Hk).
    eexists. split; [reflexivity|]. cbn [veoKeySettled].
    unfold veoRequest. rewrite Himg. cbn [negb]. repeat split.
  - intros w1 k sel recheck Hk Hno. rewrite (step_settle w1 k _ _ Hk).
    eexists. split; [reflexivity|]. unfold veoKeySettled.
    destruct sel as [| |hasKey]; try (repeat split; reflexivity).
    specialize (Hno hasKey eq_refl).
    destruct recheck as [[|]|e]; try (repeat split; reflexivity).
    congruence.
Qed.

Lemma veo_needs_storyboard_witness :
  card 0 (after keyedTrace) = Some scene0Imaged /\
  veoBusy "s0" (app (after keyedTrace)) = false /\
  hasPaidKey (app (after keyedTrace)) = true /\
  truthy (Scene.storyboardUrl scene0Imaged) = true /\
  step (after keyedTrace) (ClickVeoVideo 0)
  = Some (veoRequest scene0Imaged (after keyedTrace)) /\
  veoBusy "s0" (app (veoRequest scene0Imaged (after keyedTrace))) = true /\
  truthy (Scene.storyboardUrl scene1) = false /\
  veoRequest scene1 (after keyedTrace)
  = alert "Please generate a storyboard image first to use as a reference."
          (after keyedTrace) /\
  jobs (after (imagedTrace ++ [ClickVeoVideo 1])) !! 1%nat
  = Some (AwaitKey scene1) /\
  exists w2,
    step (after (imagedTrace ++ [ClickVeoVideo 1]))
         (Settle 1 (VeoKeyAnswer (HasKey true) (Fulfilled true))) = Some w2 /\
    hasPaidKey (app (after (imagedTrace ++ [ClickVeoVideo 1]))) = false /\
    hasPaidKey (app w2) = true /\
    alerts w2
    = ["Please generate a storyboard image first to use as a reference."] /\
    jobs w2 = [AwaitCheckKey].
Proof.
  assert (Hcard : card 0 (after keyedTrace) = Some scene0Imaged)
    by (vm_compute; reflexivity).
  assert (Hbusy : veoBusy (Scene.id scene0Imaged) (app (after keyedTrace))
                  = false) by (vm_compute; reflexivity).
  assert (Hkey : hasPaidKey (app (after keyedTrace)) = true)
    by (vm_compute; reflexivity).
  assert (Himg : truthy (Scene.storyboardUrl scene0Imaged) = true)
    by reflexivity.
  assert (Hcard1 : card 1 (after keyedTrace) = Some scene1)
    by (vm_compute; reflexivity).
  assert (Hbusy1 : veoBusy (Scene.id scene1) (app (after keyedTrace)) = false)
    by (vm_compute; reflexivity).
  assert (Hno : truthy (Scene.storyboardUrl scene1) = false) by reflexivity.
  destruct (veo_needs_storyboard (after keyedTrace) 0 scene0Imaged Hcard Hbusy)
    as (H1 & _ & _ & H4 & _).
  assert (Hk : jobs (after (imagedTrace ++ [ClickVeoVideo 1])) !! 1%nat
               = Some (AwaitKey scene1)) by (vm_compute; reflexivity).
  destruct (veo_needs_storyboard (after keyedTrace) 1 scene1 Hcard1 Hbusy1)
    as (_ & _ & H3 & _ & _ & _ & H7 & _).
  destruct (H7 (after (imagedTrace ++ [ClickVeoVideo 1])) 1%nat true Hk Hno)
    as (w2 & Hstep & Hpaid & _ & _ & _ & _ & _ & _ & Hjobs & Halerts & _).
  split; [exact Hcard|]. split; [exact Hbusy|]. split; [exact Hkey|].
  split; [exact Himg|]. split; [exact (H1 Hkey)|].
  split; [exact (proj2 (H4 (after keyedTrace) Himg))|].
  split; [exact Hno|]. split; [exact (H3 (after keyedTrace) Hno)|].
  split; [exact Hk|]. exists w2.
  split; [exact Hstep|]. split; [vm_compute; reflexivity|].
  split; [exact Hpaid|].
  split; [rewrite Halerts; vm_compute; reflexivity|].
  rewrite Hjobs. vm_compute. reflexivity.
Defined.

(** C5 as stated fails after [imagedTrace], where no paid key is selected
    and the key request ends without one.  For the first scene, which has
    its storyboard image, the video request starts nothing: the video flag
    stays unset and no job is pending but the key check of the mount.  For
    the second scene, which has no image, no alert is shown. *)
Lemma veo_without_key_is_silent :
  option_map (fun w =>
      (map Scene.storyboardUrl (Script.scenes (script (app w))),
       hasPaidKey (app w)))
    (run imagedTrace initialWorld)
  = Some ([Some "data:image/png;base64,AAAA"; None; None], false) /\
  option_map (fun w => (veoBusy "s0" (app w), jobs w, alerts w))
             (run (noKeyTrace 0) initialWorld)
  = Some (false, [AwaitCheckKey], []) /\
  option_map (fun w => (veoBusy "s1" (app w), jobs w, alerts w))
             (run (noKeyTrace 1) initialWorld)
  = Some (false, [AwaitCheckKey], []).
Proof. vm_compute. repeat split; reflexivity. Qed.

(** * Further properties *)

(** ** What an event does to the tracks *)

Lemma step_tracks_cases (w : World) (e : Event) (w' : World) :
  step w e = Some w' ->
  tracks (app w') = tracks (app w) \/
  (exists i val scene,
     e = ChangeDuration i val /\ card i w = Some scene /\
     (0 <=? val)%float = true /\
     app w' = updateSceneDuration (Scene.id scene) val (app w)) \/
  (exists i newId scene,
     e = ClickAddToTimeline i newId /\ card i w = Some scene /\
     app w' = addToTimeline scene newId (app w)).
Proof.
  destruct e; unfold step; intros H.
  - injection H as <-. left. reflexivity.
  - destruct (hasPaidKey (app w)); [discriminate|]. injection H as <-.
    left. reflexivity.
  - destruct (activeTab (app w)); try discriminate. injection H as <-.
    left. reflexivity.
  - destruct (activeTab (app w)); try discriminate.
    destruct (isParsing (app w)); injection H as <-; left; [reflexivity|].
    apply parseScript_tracks.
  - destruct (card i w) as [scene|] eqn:Hcard; [|discriminate].
    injection H as <-. unfold onApp. cbn [app].
    destruct (onDurationChange_cases scene val (app w)) as [E|[Hval E]];
      rewrite E; [left; reflexivity|].
    right. left. exists i, val, scene. auto.
  - destruct (card i w) as [scene|]; [|discriminate].
    destruct (imageBusy _ _); injection H as <-; left; reflexivity.
  - destruct (card i w) as [scene|]; [|discriminate].
    destruct (veoBusy _ _); injection H as <-; left; [reflexivity|].
    apply generateVeoVideo_tracks.
  - destruct (card i w) as [scene|] eqn:Hcard; [|discriminate].
    injection H as <-. right. right. exists i, newId, scene. auto.
  - destruct (jobs w !! k) as [j|]; [|discriminate].
    apply resume_tracks in H. left. exact H.
Qed.

Lemma timelineShape_updateSceneDuration (sceneId : string) (d : float)
  (st : AppState) :
  timelineShape st -> timelineShape (updateSceneDuration sceneId d st).
Proof.
  intros (clips & Ht & Hc). unfold timelineShape.
  rewrite updateSceneDuration_tracks, Ht.
  eexists. split; [reflexivity|].
  apply List.Forall_forall. intros c Hin.
  apply in_map_iff in Hin as (c0 & <- & Hin).
  rewrite List.Forall_forall in Hc. specialize (Hc c0 Hin).
  destruct (linkedTo sceneId c0); exact Hc.
Qed.

Lemma timelineShape_addToTimeline (scene : Scene.t) (newId : string)
  (st : AppState) :
  timelineShape st -> timelineShape (addToTimeline scene newId st).
Proof.
  intros (clips & Ht & Hc).
  destruct (addToTimeline_three_tracks scene newId st _ _ _ Ht
              eq_refl eq_refl eq_refl) as (_ & E & _).
  unfold timelineShape. rewrite E. eexists. split; [reflexivity|].
  cbn [Track.clips]. apply Forall_app. split; [exact Hc|].
  apply List.Forall_cons; [|apply List.Forall_nil].
  repeat split; cbn; eauto.
Qed.

Lemma timelineShape_reachable (w : World) :
  reachable w -> timelineShape (app w).
Proof.
  intros Hw. induction Hw as [|w e w' _ IH Hstep].
  - exists []. split; [reflexivity|apply List.Forall_nil].
  - destruct (step_tracks_cases w e w' Hstep)
      as [E|[(i & val & scene & _ & _ & _ & E)|(i & newId & scene & _ & _ & E)]].
    + destruct IH as (clips & Ht & Hc). exists clips. rewrite E. auto.
    + rewrite E. apply timelineShape_updateSceneDuration, IH.
    + rewrite E. apply timelineShape_addToTimeline, IH.
Qed.

(** X1. In every reachable world the track list is the one of the initial
    state, "Video 1", "Video 2" and "Audio 1" with the ids 1, 2 and 3 in
    that order; the second and the third track hold no clip; and every clip
    of the first track is a cyan video clip of track 1 that is linked to a
    scene id. *)
Theorem reachable_timelineShape (w : World) :
  reachable w -> timelineShape (app w).
Proof.
  induction 1 as [|w e w' _ IH Hstep].
  - exists []. split; [reflexivity|apply List.Forall_nil].
  - destruct (step_tracks_cases w e w' Hstep)
      as [E|[(i & val & scene & _ & _ & _ & E)|(i & newId & scene & _ & _ & E)]].
    + destruct IH as (clips & Ht & Hc). exists clips. rewrite E. auto.
    + rewrite E. apply timelineShape_updateSceneDuration, IH.
    + rewrite E. apply timelineShape_addToTimeline, IH.
Qed.

Lemma reachable_timelineShape_witness :
  reachable (after scenarioA) /\ timelineShape (app (after scenarioA)).
Proof.
  assert (Hw : reachable (after scenarioA))
    by (apply after_reachable; vm_compute; eauto).
  split; [exact Hw|]. exact (reachable_timelineShape _ Hw).
Defined.

(** ** Clips stay where they were put *)

Lemma find_map_same {A : Type} (p : A -> bool) (g : A -> A) (l : list A) :
  (forall x, p (g x) = p x) ->
  List.find p (map g l) = option_map g (List.find p l).
Proof.
  intros Hp. induction l as [|x l IH]; simpl; [reflexivity|].
  rewrite Hp. destruct (p x); [reflexivity|exact IH].
Qed.

Lemma trackClips_updateSceneDuration (n : Z) (sceneId : string) (d : float)
  (st : AppState) :
  trackClips n (updateSceneDuration sceneId d st)
  = map (fun clip => if linkedTo sceneId clip
                     then Clip.with_duration d clip else clip)
        (trackClips n st).
Proof.
  unfold trackClips. rewrite updateSceneDuration_tracks.
  rewrite find_map_same by reflexivity.
  destruct (List.find _ (tracks st)); reflexivity.
Qed.

Lemma trackClips_same (n : Z) (st st' : AppState) :
  tracks st' = tracks st -> trackClips n st' = trackClips n st.
Proof. unfold trackClips. intros ->. reflexivity. Qed.

Lemma trackClips_addToTimeline (scene : Scene.t) (newId : string)
  (st : AppState) :
  timelineShape st ->
  trackClips 1 (addToTimeline scene newId st)
  = trackClips 1 st ++ [sceneClip scene newId (endOf (trackClips 1 st))].
Proof.
  intros (clips & Ht & _).
  destruct (addToTimeline_three_tracks scene newId st _ _ _ Ht
              eq_refl eq_refl eq_refl) as (E & _ & E').
  rewrite E, E'. reflexivity.
Qed.

Lemma step_clipPlaces (w : World) (e : Event) (w' : World) :
  reachable w -> step w e = Some w' ->
  exists added,
    map clipPlace (trackClips 1 (app w'))
    = map clipPlace (trackClips 1 (app w)) ++ added.
Proof.
  intros Hw Hstep.
  destruct (step_tracks_cases w e w' Hstep)
    as [E|[(i & val & scene & _ & _ & _ & E)|(i & newId & scene & _ & _ & E)]].
  - exists []. rewrite (trackClips_same 1 _ _ E), app_nil_r. reflexivity.
  - exists []. rewrite E, trackClips_updateSceneDuration, map_map, app_nil_r.
    apply map_ext. intros c. destruct (linkedTo _ c); reflexivity.
  - rewrite E.
    rewrite (trackClips_addToTimeline scene newId (app w)
               (timelineShape_reachable w Hw)).
    rewrite map_app. eexists. reflexivity.
Qed.

(** X2. No event moves, relinks, reorders or removes a clip: along every
    run from a reachable world, the ids, start times and scene links of the
    clips of track 1 (the only track that holds clips) stay, in their
    order, a prefix of what the track holds afterwards. *)
Theorem clips_stay_in_place (es : list Event) (w w' : World) :
  reachable w -> run es w = Some w' ->
  exists added,
    map clipPlace (trackClips 1 (app w'))
    = map clipPlace (trackClips 1 (app w)) ++ added.
Proof.
  revert w. induction es as [|e es IH]; intros w Hw Hrun; simpl in Hrun.
  - injection Hrun as <-. exists []. rewrite app_nil_r. reflexivity.
  - destruct (step w e) as [w1|] eqn:Hstep; [|discriminate].
    destruct (step_clipPlaces w e w1 Hw Hstep) as (a1 & E1).
    destruct (IH w1 (reachable_step w e w1 Hw Hstep) Hrun) as (a2 & E2).
    exists (a1 ++ a2). rewrite E2, E1, app_assoc. reflexivity.
Qed.

Lemma clips_stay_in_place_witness :
  reachable (after parsedTrace) /\
  run [ClickAddToTimeline 0 "c0"; ClickTab TabStoryboard;
       ChangeDuration 0 9%float; ClickAddToTimeline 2 "c2"]
      (after parsedTrace)
  = Some (after (parsedTrace ++
                 [ClickAddToTimeline 0 "c0"; ClickTab TabStoryboard;
                  ChangeDuration 0 9%float; ClickAddToTimeline 2 "c2"])) /\
  exists added,
    map clipPlace
      (trackClips 1
         (app (after (parsedTrace ++
                      [ClickAddToTimeline 0 "c0"; ClickTab TabStoryboard;
                       ChangeDuration 0 9%float; ClickAddToTimeline 2 "c2"]))))
    = map clipPlace (trackClips 1 (app (after parsedTrace))) ++ added.
Proof.
  assert (Hw : reachable (after parsedTrace))
    by (apply after_reachable; vm_compute; eauto).
  assert (Hrun :
    run [ClickAddToTimeline 0 "c0"; ClickTab TabStoryboard;
         ChangeDuration 0 9%float; ClickAddToTimeline 2 "c2"]
        (after parsedTrace)
    = Some (after (parsedTrace ++
                   [ClickAddToTimeline 0 "c0"; ClickTab TabStoryboard;
                    ChangeDuration 0 9%float; ClickAddToTimeline 2 "c2"])))
    by (vm_compute; reflexivity).
  split; [exact Hw|]. split; [exact Hrun|].
  exact (clips_stay_in_place _ _ _ Hw Hrun).
Defined.

(** ** Gaps and overlaps *)

Lemma startsFrom_snoc (start : float) (durations : list float) (d : float) :
  startsFrom start (durations ++ [d])
  = startsFrom start durations
    ++ [fold_left PrimFloat.add durations start].
Proof.
  revert start. induction durations as [|x l IH]; intros start; simpl;
    [reflexivity|]. rewrite IH. reflexivity.
Qed.

Lemma contiguous_end (start : float) (clips : list Clip.t) :
  map Clip.startTime clips = startsFrom start (map Clip.duration clips) ->
  match last clips with
  | Some c => (Clip.startTime c + Clip.duration c)%float
  | None => start
  end
  = fold_left PrimFloat.add (map Clip.duration clips) start.
Proof.
  revert start. induction clips as [|c rest IH]; intros start H;
    [reflexivity|].
  simpl in H. injection H as Hc Hrest. subst start.
  destruct rest as [|c' rest].
  - reflexivity.
  - specialize (IH _ Hrest).
    change (last (c :: c' :: rest)) with (last (c' :: rest)).
    destruct (last (c' :: rest)) eqn:E.
    + exact IH.
    + apply last_None in E. discriminate.
Qed.

Lemma contiguous_snoc (clips : list Clip.t) (c : Clip.t) :
  contiguous clips -> Clip.startTime c = endOf clips ->
  contiguous (clips ++ [c]).
Proof.
  unfold contiguous. intros H Hc.
  rewrite !map_app. cbn [map]. rewrite startsFrom_snoc, H, Hc.
  unfold endOf. rewrite (contiguous_end 0%float clips H). reflexivity.
Qed.

Lemma step_contiguous (w : World) (e : Event) (w' : World) :
  reachable w -> step w e = Some w' -> isDurationEdit e = false ->
  contiguous (trackClips 1 (app w)) -> contiguous (trackClips 1 (app w')).
Proof.
  intros Hw Hstep He Hc.
  destruct (step_tracks_cases w e w' Hstep)
    as [E|[(i & val & scene & -> & _)|(i & newId & scene & _ & _ & E)]].
  - rewrite (trackClips_same 1 _ _ E). exact Hc.
  - discriminate.
  - rewrite E.
    rewrite (trackClips_addToTimeline scene newId (app w)
               (timelineShape_reachable w Hw)).
    apply contiguous_snoc; [exact Hc|reflexivity].
Qed.

Lemma contiguous_next (start : float) (clips : list Clip.t) (n : nat)
  (c c' : Clip.t) :
  map Clip.startTime clips = startsFrom start (map Clip.duration clips) ->
  clips !! n = Some c -> clips !! S n = Some c' ->
  Clip.startTime c' = (Clip.startTime c + Clip.duration c)%float.
Proof.
  revert start n. induction clips as [|x rest IH]; intros start n H Hc Hc';
    [discriminate|].
  simpl in H. injection H as Hx Hrest. destruct n as [|n].
  - simpl in Hc. injection Hc as <-. destruct rest as [|y rest];
      [discriminate|].
    simpl in Hc'. injection Hc' as <-. simpl in Hrest.
    injection Hrest as Hy _. rewrite Hy, Hx. reflexivity.
  - exact (IH _ n Hrest Hc Hc').
Qed.

(** X3. As long as no duration is edited, the clips of track 1 form a
    chain: after every run of events from the initial world that holds no
    change of a duration input, the first clip starts at 0 and each further
    clip starts exactly at the start time plus the duration of the clip
    before it.  (The durations are those of the analysis reply, taken as
    they come; with a negative one the chain runs backwards.) *)
Theorem timeline_contiguous_without_edits (es : list Event) (w : World) :
  run es initialWorld = Some w ->
  forallb (fun e => negb (isDurationEdit e)) es = true ->
  contiguous (trackClips 1 (app w)) /\
  (forall c, trackClips 1 (app w) !! 0%nat = Some c ->
     Clip.startTime c = 0%float) /\
  (forall n c c',
     trackClips 1 (app w) !! n = Some c ->
     trackClips 1 (app w) !! S n = Some c' ->
     Clip.startTime c' = (Clip.startTime c + Clip.duration c)%float).
Proof.
  assert (H : forall w0, reachable w0 ->
              contiguous (trackClips 1 (app w0)) ->
              run es w0 = Some w ->
              forallb (fun e => negb (isDurationEdit e)) es = true ->
              contiguous (trackClips 1 (app w))).
  { induction es as [|e es IH]; intros w0 Hw0 Hc Hrun Hes; simpl in Hrun.
    - injection Hrun as <-. exact Hc.
    - destruct (step w0 e) as [w1|] eqn:Hstep; [|discriminate].
      simpl in Hes. apply andb_true_iff in Hes as [He Hes].
      apply negb_true_iff in He.
      apply (IH w1); auto.
      + eapply reachable_step; eauto.
      + eapply step_contiguous; eauto. }
  intros Hrun Hes.
  assert (Hc : contiguous (trackClips 1 (app w)))
    by (apply (H initialWorld); [apply reachable_init|reflexivity|auto..]).
  split; [exact Hc|]. split.
  - intros c H0. unfold contiguous in Hc.
    destruct (trackClips 1 (app w)) as [|x rest]; [discriminate|].
    simpl in H0, Hc. injection H0 as <-. injection Hc as Hx _. exact Hx.
  - intros n c c'. apply (contiguous_next 0%float), Hc.
Qed.

Lemma timeline_contiguous_without_edits_witness :
  run scenarioA initialWorld = Some (after scenarioA) /\
  forallb (fun e => negb (isDurationEdit e)) scenarioA = true /\
  contiguous (trackClips 1 (app (after scenarioA))).
Proof.
  assert (Hrun : run scenarioA initialWorld = Some (after scenarioA))
    by (vm_compute; reflexivity).
  assert (Hes : forallb (fun e => negb (isDurationEdit e)) scenarioA = true)
    by reflexivity.
  split; [exact Hrun|]. split; [exact Hes|].
  exact (proj1 (timeline_contiguous_without_edits _ _ Hrun Hes)).
Defined.

Lemma endOf_map_duration (sceneId : string) (d : float) (clips : list Clip.t)
  (c : Clip.t) :
  last clips = Some c ->
  endOf (map (fun clip => if linkedTo sceneId clip
                          then Clip.with_duration d clip else clip) clips)
  = if linkedTo sceneId c
    then (Clip.startTime c + d)%float
    else (Clip.startTime c + Clip.duration c)%float.
Proof.
  intros Hlast. unfold endOf.
  change (map ?f clips) with (f <$> clips).
  rewrite fmap_last, Hlast. cbn [fmap option_fmap option_map].
  destruct (linkedTo sceneId c); reflexivity.
Qed.

(** X4. A duration edit moves no clip, and the next clip is placed after
    the last clip as edited: in a reachable world whose track 1 ends with
    the clip [c], after an accepted edit of a scene's duration to [val] the
    start times are as before, and the clip appended next starts at
    [c.startTime + val] when [c] is linked to the edited scene, at
    [c.startTime + c.duration] when it is not.  So an edit of the last
    clip's scene shifts the place of the next clip, and an edit of an
    earlier clip's scene leaves the gap or overlap it makes. *)
Theorem edit_then_append (w : World) (i j : nat) (val : float)
  (scene : Scene.t) (newId : string) (c : Clip.t) (w1 w2 : World) :
  reachable w ->
  last (trackClips 1 (app w)) = Some c ->
  card i w = Some scene ->
  isNaN val = false -> (0 <=? val)%float = true ->
  step w (ChangeDuration i val) = Some w1 ->
  step w1 (ClickAddToTimeline j newId) = Some w2 ->
  map Clip.startTime (trackClips 1 (app w1))
  = map Clip.startTime (trackClips 1 (app w)) /\
  exists c2,
    last (trackClips 1 (app w2)) = Some c2 /\
    Clip.startTime c2
    = if linkedTo (Scene.id scene) c
      then (Clip.startTime c + val)%float
      else (Clip.startTime c + Clip.duration c)%float.
Proof.
  intros Hw Hlast Hcard Hnan Hval Hedit Hadd.
  assert (Hw1 : reachable w1) by (eapply reachable_step; eauto).
  assert (Happ : app w1 = updateSceneDuration (Scene.id scene) val (app w)).
  { unfold step in Hedit. rewrite Hcard in Hedit. injection Hedit as <-.
    unfold onApp, onDurationChange. cbn [app]. rewrite Hnan, Hval.
    reflexivity. }
  assert (E1 : trackClips 1 (app w1)
               = map (fun clip => if linkedTo (Scene.id scene) clip
                                  then Clip.with_duration val clip else clip)
                     (trackClips 1 (app w)))
    by (rewrite Happ; apply trackClips_updateSceneDuration).
  split.
  - rewrite E1, map_map. apply map_ext. intros c0.
    destruct (linkedTo _ c0); reflexivity.
  - destruct (step_addToTimeline _ j newId w2 Hadd) as (scene' & _ & ->).
    cbn [app onApp].
    rewrite (trackClips_addToTimeline scene' newId _
               (timelineShape_reachable _ Hw1)).
    rewrite last_snoc. eexists. split; [reflexivity|].
    cbn [Clip.startTime sceneClip]. rewrite E1.
    apply endOf_map_duration, Hlast.
Qed.

Lemma edit_then_append_witness :
  reachable (after (parsedTrace ++ [ClickAddToTimeline 0 "c0";
                                    ClickTab TabStoryboard])) /\
  exists w1 w2 c2,
    step (after (parsedTrace ++ [ClickAddToTimeline 0 "c0";
                                 ClickTab TabStoryboard]))
         (ChangeDuration 0 8%float) = Some w1 /\
    step w1 (ClickAddToTimeline 1 "c1") = Some w2 /\
    map Clip.startTime (trackClips 1 (app w1)) = [0%float] /\
    last (trackClips 1 (app w2)) = Some c2 /\
    Clip.startTime c2 = 8%float.
Proof.
  set (w := after (parsedTrace ++ [ClickAddToTimeline 0 "c0";
                                   ClickTab TabStoryboard])).
  assert (Hw : reachable w) by (apply after_reachable; vm_compute; eauto).
  assert (Hlast : last (trackClips 1 (app w))
                  = Some (sceneClip scene0 "c0" 0%float))
    by (vm_compute; reflexivity).
  assert (Hcard : card 0 w = Some scene0) by (vm_compute; reflexivity).
  assert (Hnan : isNaN 8%float = false) by reflexivity.
  assert (Hval : (0 <=? 8)%float = true) by reflexivity.
  destruct (step w (ChangeDuration 0 8%float)) as [w1|] eqn:H1;
    [|vm_compute in H1; discriminate].
  destruct (step w1 (ClickAddToTimeline 1 "c1")) as [w2|] eqn:H2;
    [|vm_compute in H1; injection H1 as <-; vm_compute in H2; discriminate].
  destruct (edit_then_append w 0 1 8%float scene0 "c1" _ w1 w2
              Hw Hlast Hcard Hnan Hval H1 H2) as (Hs & c2 & Hc2 & Hstart).
  split; [exact Hw|]. exists w1, w2, c2.
  split; [reflexivity|]. split; [exact H2|].
  split; [rewrite Hs; vm_compute; reflexivity|].
  split; [exact Hc2|]. rewrite Hstart. vm_compute. reflexivity.
Defined.

(** ** Duration edits compose *)

Lemma linkedTo_with_duration (sceneId : string) (d : float) (c : Clip.t) :
  linkedTo sceneId (Clip.with_duration d c) = linkedTo sceneId c.
Proof. reflexivity. Qed.

(** X5. The last duration edit of a scene wins: two updates of one scene
    id in a row leave the state that the second alone leaves. *)
Theorem updateSceneDuration_last_wins (sceneId : string) (d1 d2 : float)
  (st : AppState) :
  updateSceneDuration sceneId d2 (updateSceneDuration sceneId d1 st)
  = updateSceneDuration sceneId d2 st.
Proof.
  unfold updateSceneDuration, setTracks, setScript. cbn.
  f_equal.
  - unfold Script.with_scenes. cbn. f_equal.
    rewrite map_map. apply map_ext. intros s. cbn.
    destruct (String.eqb (Scene.id s) sceneId) eqn:E; cbn; rewrite E;
      reflexivity.
  - rewrite map_map. apply map_ext. intros t.
    unfold Track.with_clips. cbn. f_equal.
    rewrite map_map. apply map_ext. intros c.
    destruct (linkedTo sceneId c) eqn:E.
    + rewrite linkedTo_with_duration, E. reflexivity.
    + rewrite E. reflexivity.
Qed.

(** X6. Duration edits of two different scene ids commute: either order
    leaves the same scenes and the same clips. *)
Theorem updateSceneDuration_commute (id1 id2 : string) (d1 d2 : float)
  (st : AppState) :
  id1 <> id2 ->
  updateSceneDuration id1 d1 (updateSceneDuration id2 d2 st)
  = updateSceneDuration id2 d2 (updateSceneDuration id1 d1 st).
Proof.
  intros Hne.
  unfold updateSceneDuration, setTracks, setScript. cbn.
  f_equal.
  - unfold Script.with_scenes. cbn. f_equal.
    rewrite !map_map. apply map_ext. intros s.
    destruct (String.eqb (Scene.id s) id1) eqn:E1;
      destruct (String.eqb (Scene.id s) id2) eqn:E2; cbn;
      rewrite ?E1, ?E2; try reflexivity.
    apply String.eqb_eq in E1, E2. congruence.
  - rewrite !map_map. apply map_ext. intros t.
    unfold Track.with_clips. cbn. f_equal.
    rewrite !map_map. apply map_ext. intros c.
    destruct (linkedTo id1 c) eqn:E1; destruct (linkedTo id2 c) eqn:E2;
      rewrite ?linkedTo_with_duration, ?E1, ?E2; try reflexivity.
    apply linkedTo_true in E1, E2. congruence.
Qed.

Lemma updateSceneDuration_commute_witness :
  "s0" <> "s1" /\
  updateSceneDuration "s0" 8%float
    (updateSceneDuration "s1" 2%float (app (after scenarioA)))
  = updateSceneDuration "s1" 2%float
      (updateSceneDuration "s0" 8%float (app (after scenarioA))).
Proof.
  assert (Hne : "s0" <> "s1") by discriminate.
  split; [exact Hne|].
  exact (updateSceneDuration_commute "s0" "s1" 8%float 2%float _ Hne).
Defined.

(** ** What an event does to the scenes *)

Lemma veoRequest_script scene w :
  script (app (veoRequest scene w)) = script (app w).
Proof. unfold veoRequest. branches; reflexivity. Qed.

Lemma generateVeoVideo_script scene w :
  script (app (generateVeoVideo scene w)) = script (app w).
Proof.
  unfold generateVeoVideo. destruct (negb (hasPaidKey (app w)));
    [reflexivity|apply veoRequest_script].
Qed.

Lemma veoKeySettled_script scene sel recheck w :
  script (app (veoKeySettled scene sel recheck w)) = script (app w).
Proof.
  unfold veoKeySettled. destruct sel as [| |hasKey]; try reflexivity.
  destruct recheck as [[|]|]; try reflexivity.
  rewrite veoRequest_script. reflexivity.
Qed.

Lemma veoPolling_script scene operation w :
  script (app (veoPolling scene operation w)) = script (app w).
Proof. unfold veoPolling, veoDone. branches; reflexivity. Qed.

Lemma veoVideosSettled_script scene r w :
  script (app (veoVideosSettled scene r w)) = script (app w).
Proof.
  unfold veoVideosSettled. destruct r; [|reflexivity].
  rewrite veoPolling_script. reflexivity.
Qed.

Lemma veoPollSettled_script scene r w :
  script (app (veoPollSettled scene r w)) = script (app w).
Proof.
  unfold veoPollSettled. destruct r; [|reflexivity].
  apply veoPolling_script.
Qed.

Lemma parseScript_script w : script (app (parseScript w)) = script (app w).
Proof. unfold parseScript. branches; reflexivity. Qed.

Lemma keySettled_script r w : script (app (keySettled r w)) = script (app w).
Proof. unfold keySettled. branches; reflexivity. Qed.

(** Every event is, for the scenes and the tracks, one of six things. *)
Lemma step_app_cases (w : World) (e : Event) (w' : World) :
  step w e = Some w' ->
  (Script.scenes (script (app w')) = Script.scenes (script (app w)) /\
   tracks (app w') = tracks (app w)) \/
  (exists i val scene,
     e = ChangeDuration i val /\ card i w = Some scene /\
     app w' = updateSceneDuration (Scene.id scene) val (app w)) \/
  (exists i newId scene,
     e = ClickAddToTimeline i newId /\ card i w = Some scene /\
     app w' = addToTimeline scene newId (app w)) \/
  (exists k parsed ids,
     e = Settle k (ParseAnswer (Fulfilled parsed) ids) /\
     Script.scenes (script (app w')) = newScenes ids 0 parsed /\
     tracks (app w') = tracks (app w)) \/
  (exists sceneId url,
     url <> "" /\
     Script.scenes (script (app w'))
     = map (fun s => if String.eqb (Scene.id s) sceneId
                     then Scene.with_storyboardUrl url s else s)
           (Script.scenes (script (app w))) /\
     tracks (app w') = tracks (app w)) \/
  (exists sceneId url,
     Script.scenes (script (app w'))
     = map (fun s => if String.eqb (Scene.id s) sceneId
                     then Scene.with_videoUrl url s else s)
           (Script.scenes (script (app w))) /\
     tracks (app w') = tracks (app w)).
Proof.
  destruct e; unfold step; intros H.
  - injection H as <-. left. split; reflexivity.
  - destruct (hasPaidKey (app w)); [discriminate|]. injection H as <-.
    left. split; reflexivity.
  - destruct (activeTab (app w)); try discriminate. injection H as <-.
    left. split; reflexivity.
  - destruct (activeTab (app w)); try discriminate.
    destruct (isParsing (app w)); injection H as <-; left;
      [split; reflexivity|].
    rewrite parseScript_script, parseScript_tracks. split; reflexivity.
  - destruct (card i w) as [scene|] eqn:Hcard; [|discriminate].
    injection H as <-. unfold onApp. cbn [app].
    destruct (onDurationChange_cases scene val (app w)) as [E|[Hval E]];
      rewrite E; [left; split; reflexivity|].
    right. left. exists i, val, scene. auto.
  - destruct (card i w) as [scene|]; [|discriminate].
    destruct (imageBusy _ _); injection H as <-; left; split; reflexivity.
  - destruct (card i w) as [scene|]; [|discriminate].
    destruct (veoBusy _ _); injection H as <-; left; [split; reflexivity|].
    rewrite generateVeoVideo_script, generateVeoVideo_tracks.
    split; reflexivity.
  - destruct (card i w) as [scene|] eqn:Hcard; [|discriminate].
    injection H as <-. right. right. left. exists i, newId, scene. auto.
  - destruct (jobs w !! k) as [j|]; [|discriminate].
    destruct j, r; simpl in H; try discriminate; injection H as <-.
    + left. rewrite keySettled_script, keySettled_tracks. split; reflexivity.
    + left. rewrite keySettled_script, keySettled_tracks. split; reflexivity.
    + destruct r as [parsed|err].
      * right. right. right. left. exists k, parsed, ids.
        repeat split.
      * left. split; reflexivity.
    + destruct r as [parts|err]; [|left; split; reflexivity].
      unfold imageSettled.
      destruct (negb (String.eqb (imageUrlOf parts) "")) eqn:E;
        [|left; split; reflexivity].
      right. right. right. right. left.
      exists sceneId, (imageUrlOf parts). repeat split.
      apply negb_true_iff, String.eqb_neq in E. exact E.
    + left. rewrite veoKeySettled_script, veoKeySettled_tracks.
      split; reflexivity.
    + left. rewrite veoVideosSettled_script, veoVideosSettled_tracks.
      split; reflexivity.
    + left. rewrite veoPollSettled_script, veoPollSettled_tracks.
      split; reflexivity.
    + destruct r as [videoUrl|err]; [|left; split; reflexivity].
      right. right. right. right. right.
      exists (Scene.id scene), videoUrl. split; reflexivity.
Qed.

(** X7. Only a successful analysis changes which scenes there are: every
    other event leaves the ids, numbers, sluglines and descriptions of the
    scenes, and their order, as they were. *)
Theorem scenes_change_only_by_parse (w : World) (e : Event) (w' : World) :
  step w e = Some w' ->
  isFulfilledParse e = false ->
  map sceneIdentity (Script.scenes (script (app w')))
  = map sceneIdentity (Script.scenes (script (app w))).
Proof.
  intros Hstep He.
  destruct (step_app_cases w e w' Hstep)
    as [[E _]|[(i & val & scene & _ & _ & E)|[(i & newId & scene & _ & _ & E)
       |[(k & parsed & ids & -> & _)|[(sid & url & _ & E & _)
       |(sid & url & E & _)]]]]].
  - rewrite E. reflexivity.
  - rewrite E, updateSceneDuration_scenes, map_map. apply map_ext.
    intros s. destruct (String.eqb (Scene.id s) _); reflexivity.
  - rewrite E. reflexivity.
  - discriminate.
  - rewrite E, map_map. apply map_ext.
    intros s. destruct (String.eqb (Scene.id s) sid); reflexivity.
  - rewrite E, map_map. apply map_ext.
    intros s. destruct (String.eqb (Scene.id s) sid); reflexivity.
Qed.

Lemma scenes_change_only_by_parse_witness :
  step (after imageTrace)
       (Settle 1 (ImageAnswer
          (Fulfilled [mkPart None;
                      mkPart (Some (mkInline "image/png" "AAAA"))])))
  = Some (after imagedTrace) /\
  map sceneIdentity (Script.scenes (script (app (after imagedTrace))))
  = map sceneIdentity (Script.scenes (script (app (after imageTrace)))).
Proof.
  assert (Hstep :
    step (after imageTrace)
         (Settle 1 (ImageAnswer
            (Fulfilled [mkPart None;
                        mkPart (Some (mkInline "image/png" "AAAA"))])))
    = Some (after imagedTrace)) by (vm_compute; reflexivity).
  split; [exact Hstep|].
  exact (scenes_change_only_by_parse _ _ _ Hstep eq_refl).
Defined.

(** ** Scene and clip durations agree *)

Lemma durationsAgree_updateSceneDuration (sceneId : string) (d : float)
  (st : AppState) :
  durationsAgree st -> durationsAgree (updateSceneDuration sceneId d st).
Proof.
  intros [H1 H2]. split.
  - intros s s' Hs Hs' Hid. rewrite updateSceneDuration_scenes in Hs, Hs'.
    apply in_map_iff in Hs as (s0 & <- & Hs0).
    apply in_map_iff in Hs' as (s0' & <- & Hs0').
    assert (Hid0 : Scene.id s0 = Scene.id s0').
    { destruct (String.eqb (Scene.id s0) sceneId),
               (String.eqb (Scene.id s0') sceneId); exact Hid. }
    rewrite <- Hid0.
    destruct (String.eqb (Scene.id s0) sceneId); [reflexivity|].
    apply H1; assumption.
  - intros s t c Hs Ht Hc Hlink.
    rewrite updateSceneDuration_scenes in Hs.
    rewrite updateSceneDuration_tracks in Ht.
    apply in_map_iff in Hs as (s0 & <- & Hs0).
    apply in_map_iff in Ht as (t0 & <- & Ht0). cbn [Track.clips Track.with_clips] in Hc.
    apply in_map_iff in Hc as (c0 & <- & Hc0).
    assert (Hlink0 : Clip.sceneId c0 = Some (Scene.id s0)).
    { destruct (linkedTo sceneId c0), (String.eqb (Scene.id s0) sceneId);
        exact Hlink. }
    destruct (String.eqb (Scene.id s0) sceneId) eqn:E.
    + apply String.eqb_eq in E. rewrite <- E in *.
      rewrite (proj2 (linkedTo_true _ c0) Hlink0). reflexivity.
    + apply String.eqb_neq in E.
      destruct (linkedTo sceneId c0) eqn:El.
      * apply linkedTo_true in El. congruence.
      * apply (H2 s0 t0 c0); assumption.
Qed.

Lemma addToTimeline_clips (scene : Scene.t) (newId : string) (st : AppState)
  (t : Track.t) (c : Clip.t) :
  In t (tracks (addToTimeline scene newId st)) -> In c (Track.clips t) ->
  (exists t0, In t0 (tracks st) /\ In c (Track.clips t0)) \/
  (Clip.sceneId c = Some (Scene.id scene) /\
   Clip.duration c = Scene.duration scene).
Proof.
  unfold addToTimeline. cbn [tracks setTracks setActiveTab].
  intros Ht Hc. apply in_map_iff in Ht as (t0 & <- & Ht0).
  destruct (Track.id t0 =? 1).
  - cbn [Track.clips Track.with_clips] in Hc.
    apply in_app_iff in Hc as [Hc|[<-|[]]]; [left; eauto|right].
    split; reflexivity.
  - left. eauto.
Qed.

Lemma durationsAgree_addToTimeline (scene : Scene.t) (newId : string)
  (st : AppState) :
  In scene (Script.scenes (script st)) ->
  durationsAgree st -> durationsAgree (addToTimeline scene newId st).
Proof.
  intros Hscene [H1 H2]. split; [exact H1|].
  intros s t c Hs Ht Hc Hlink.
  destruct (addToTimeline_clips scene newId st t c Ht Hc)
    as [(t0 & Ht0 & Hc0)|[Hl Hd]].
  - apply (H2 s t0 c); assumption.
  - rewrite Hd. apply H1; [assumption|exact Hs|congruence].
Qed.

Lemma durationsAgree_scene_map (g : Scene.t -> Scene.t) (st st' : AppState) :
  (forall s, Scene.id (g s) = Scene.id s /\
             Scene.duration (g s) = Scene.duration s) ->
  Script.scenes (script st') = map g (Script.scenes (script st)) ->
  tracks st' = tracks st ->
  durationsAgree st -> durationsAgree st'.
Proof.
  intros Hg Es Et [H1 H2]. unfold durationsAgree. rewrite Es, Et. split.
  - intros s s' Hs Hs' Hid.
    apply in_map_iff in Hs as (s0 & <- & Hs0).
    apply in_map_iff in Hs' as (s0' & <- & Hs0').
    rewrite !(proj2 (Hg _)). rewrite !(proj1 (Hg _)) in Hid. auto.
  - intros s t c Hs Ht Hc Hlink.
    apply in_map_iff in Hs as (s0 & <- & Hs0).
    rewrite (proj2 (Hg _)). rewrite (proj1 (Hg _)) in Hlink.
    apply (H2 s0 t c); assumption.
Qed.

Lemma NoDup_ids_same (l : list Scene.t) (s s' : Scene.t) :
  List.NoDup (map Scene.id l) -> In s l -> In s' l ->
  Scene.id s = Scene.id s' -> s = s'.
Proof.
  induction l as [|x l IH]; simpl; intros Hnd Hs Hs' Hid; [contradiction|].
  inversion Hnd as [|? ? Hx Hl]; subst.
  destruct Hs as [->|Hs], Hs' as [->|Hs']; auto.
  - exfalso. apply Hx. rewrite Hid. apply in_map, Hs'.
  - exfalso. apply Hx. rewrite <- Hid. apply in_map, Hs.
Qed.

(** X8. Durations stay in step: if in a world the scenes of one id have
    one duration and every clip linked to that id has it too, the same
    holds after every event; for a successful analysis this takes that the
    ids drawn for the new scenes differ from one another and from the
    links of the clips on the timeline. *)
Theorem durationsAgree_preserved (w : World) (e : Event) (w' : World) :
  durationsAgree (app w) ->
  step w e = Some w' ->
  (isFulfilledParse e = true ->
   List.NoDup (map Scene.id (Script.scenes (script (app w')))) /\
   forall t c sceneId,
     In t (tracks (app w)) -> In c (Track.clips t) ->
     Clip.sceneId c = Some sceneId ->
     ~ In sceneId (map Scene.id (Script.scenes (script (app w'))))) ->
  durationsAgree (app w').
Proof.
  intros Hw Hstep Hparse.
  destruct (step_app_cases w e w' Hstep)
    as [[Es Et]|[(i & val & scene & _ & _ & E)
       |[(i & newId & scene & _ & Hcard & E)
       |[(k & parsed & ids & -> & Es & Et)|[(sid & url & _ & Es & Et)
       |(sid & url & Es & Et)]]]]].
  - unfold durationsAgree. rewrite Es, Et. exact Hw.
  - rewrite E. apply durationsAgree_updateSceneDuration, Hw.
  - rewrite E. apply durationsAgree_addToTimeline; [|exact Hw].
    apply card_lookup in Hcard as [_ Hi].
    apply list_elem_of_In, list_elem_of_lookup. eauto.
  - destruct (Hparse eq_refl) as [Hnd Hfresh]. split.
    + intros s s' Hs Hs' Hid.
      rewrite (NoDup_ids_same _ s s' Hnd Hs Hs' Hid). reflexivity.
    + intros s t c Hs Ht Hc Hlink. rewrite Et in Ht. exfalso.
      apply (Hfresh t c (Scene.id s) Ht Hc Hlink). apply in_map, Hs.
  - eapply durationsAgree_scene_map; [|exact Es|exact Et|exact Hw].
    intros s. cbn beta. destruct (String.eqb (Scene.id s) sid);
      split; reflexivity.
  - eapply durationsAgree_scene_map; [|exact Es|exact Et|exact Hw].
    intros s. cbn beta. destruct (String.eqb (Scene.id s) sid);
      split; reflexivity.
Qed.

Lemma durationsAgree_preserved_witness :
  durationsAgree (app (after parsedTrace)) /\
  step (after parsedTrace) (ClickAddToTimeline 0 "c0")
  = Some (after (parsedTrace ++ [ClickAddToTimeline 0 "c0"])) /\
  durationsAgree (app (after (parsedTrace ++ [ClickAddToTimeline 0 "c0"]))).
Proof.
  assert (Hw : durationsAgree (app (after parsedTrace))).
  { split.
    - intros s s' Hs Hs' Hid. vm_compute in Hs, Hs'.
      destruct Hs as [<-|[<-|[<-|[]]]], Hs' as [<-|[<-|[<-|[]]]];
        first [reflexivity | discriminate Hid].
    - intros s t c Hs Ht Hc. vm_compute in Ht.
      destruct Ht as [<-|[<-|[<-|[]]]]; destruct Hc. }
  assert (Hstep : step (after parsedTrace) (ClickAddToTimeline 0 "c0")
                  = Some (after (parsedTrace ++ [ClickAddToTimeline 0 "c0"])))
    by (vm_compute; reflexivity).
  split; [exact Hw|]. split; [exact Hstep|].
  apply (durationsAgree_preserved _ _ _ Hw Hstep). discriminate.
Defined.

(** ** The reply of an image job *)

Lemma imageUrlOf_no_inline (parts : list Part) :
  imageUrlOf parts = "" <-> List.Forall (fun p => inlineData p = None) parts.
Proof.
  induction parts as [|p parts IH]; simpl.
  - split; [intros _; apply List.Forall_nil|reflexivity].
  - destruct (inlineData p) as [d|] eqn:E.
    + split; [discriminate|]. intros H. inversion H; congruence.
    + rewrite IH. split.
      * intros H. apply List.Forall_cons; assumption.
      * intros H. inversion H; assumption.
Qed.

Lemma imageUrlOf_first_inline (before rest : list Part) (p : Part)
  (d : InlineData) :
  List.Forall (fun p => inlineData p = None) before ->
  inlineData p = Some d ->
  imageUrlOf (before ++ p :: rest)
  = ("data:" ++ mimeType d ++ ";base64," ++ data d)%string.
Proof.
  intros Hb Hp. induction Hb as [|q before Hq _ IH]; simpl.
  - rewrite Hp. reflexivity.
  - rewrite Hq. exact IH.
Qed.

(** X9. A reply of the image request that holds no part with inline data
    (an empty reply included) is dropped silently: the job ends, its flag
    is cleared, and nothing else changes; no scene gets an image, nothing
    is logged and no alert is shown. These are the only replies that yield
    no image. *)
Theorem image_reply_without_image (w : World) (k : nat)
  (sceneId description : string) (parts : list Part) :
  jobs w !! k = Some (AwaitImage sceneId description) ->
  List.Forall (fun p => inlineData p = None) parts ->
  step w (Settle k (ImageAnswer (Fulfilled parts)))
  = Some (onApp (setGeneratingImages (fun prev => <[sceneId := false]> prev))
            (dropJob k w)) /\
  forall parts', imageUrlOf parts' = "" ->
    List.Forall (fun p => inlineData p = None) parts'.
Proof.
  intros Hk Hparts. split.
  - rewrite (step_settle w k _ _ Hk). cbn [resume]. unfold imageSettled.
    rewrite (proj2 (imageUrlOf_no_inline parts) Hparts). reflexivity.
  - intros parts'. apply imageUrlOf_no_inline.
Qed.

Lemma image_reply_without_image_witness :
  jobs (after imageTrace) !! 1%nat
  = Some (AwaitImage "s0" "red emergency lighting") /\
  List.Forall (fun p => inlineData p = None) [mkPart None; mkPart None] /\
  step (after imageTrace)
       (Settle 1 (ImageAnswer (Fulfilled [mkPart None; mkPart None])))
  = Some (onApp (setGeneratingImages (fun prev => <["s0" := false]> prev))
            (dropJob 1 (after imageTrace))).
Proof.
  assert (Hk : jobs (after imageTrace) !! 1%nat
               = Some (AwaitImage "s0" "red emergency lighting"))
    by (vm_compute; reflexivity).
  assert (Hp : List.Forall (fun p => inlineData p = None)
                 [mkPart None; mkPart None])
    by (repeat constructor).
  split; [exact Hk|]. split; [exact Hp|].
  exact (proj1 (image_reply_without_image _ 1 "s0" _ _ Hk Hp)).
Defined.

(** X10. Of a reply with inline data the first such part counts: every
    scene with the job's id gets the data URL built from that part's mime
    type and data, the other scenes stay as they are, and the flag is
    cleared.  From then on such a scene passes the storyboard test of the
    video request, and its image button reads "Regenerate Image". *)
Theorem image_reply_first_part (w : World) (k : nat)
  (sceneId description : string) (before rest : list Part) (p : Part)
  (d : InlineData) :
  jobs w !! k = Some (AwaitImage sceneId description) ->
  List.Forall (fun p => inlineData p = None) before ->
  inlineData p = Some d ->
  exists w',
    step w (Settle k (ImageAnswer (Fulfilled (before ++ p :: rest))))
    = Some w' /\
    Script.scenes (script (app w'))
    = map (fun s => if String.eqb (Scene.id s) sceneId
                    then Scene.with_storyboardUrl
                           ("data:" ++ mimeType d ++ ";base64," ++ data d)%string s
                    else s)
          (Script.scenes (script (app w))) /\
    imageBusy sceneId (app w') = false /\
    alerts w' = alerts w /\ console w' = console w /\
    forall s, In s (Script.scenes (script (app w'))) ->
      Scene.id s = sceneId ->
      Scene.storyboardUrl s
      = Some ("data:" ++ mimeType d ++ ";base64," ++ data d)%string /\
      imageButtonLabel s = "Regenerate Image" /\
      forall w0,
        veoRequest s w0
        = suspend (AwaitVideos s)
            (onApp (setVeoState (fun prev =>
               <[Scene.id s := mkVeo true "Initializing Veo..."]> prev)) w0).
Proof.
  intros Hk Hb Hp. rewrite (step_settle w k _ _ Hk). cbn [resume].
  eexists. split; [reflexivity|].
  assert (Hsettled :
    Script.scenes (script (app (imageSettled sceneId
       (Fulfilled (before ++ p :: rest)) (dropJob k w))))
    = map (fun s => if String.eqb (Scene.id s) sceneId
                    then Scene.with_storyboardUrl
                           ("data:" ++ mimeType d ++ ";base64," ++ data d)%string s
                    else s)
          (Script.scenes (script (app w)))).
  { unfold imageSettled.
    rewrite (imageUrlOf_first_inline before rest p d Hb Hp). reflexivity. }
  split; [exact Hsettled|]. split.
  { rewrite imageSettled_busy, String.eqb_refl. reflexivity. }
  split.
  { unfold imageSettled.
    rewrite (imageUrlOf_first_inline before rest p d Hb Hp). reflexivity. }
  split.
  { unfold imageSettled.
    rewrite (imageUrlOf_first_inline before rest p d Hb Hp). reflexivity. }
  intros s Hs Hid. rewrite Hsettled in Hs.
  apply in_map_iff in Hs as (s0 & <- & _).
  destruct (String.eqb (Scene.id s0) sceneId) eqn:E.
  - repeat split.
  - apply String.eqb_neq in E. contradiction.
Qed.

Lemma image_reply_first_part_witness :
  jobs (after imageTrace) !! 1%nat
  = Some (AwaitImage "s0" "red emergency lighting") /\
  List.Forall (fun p => inlineData p = None) [mkPart None] /\
  exists w',
    step (after imageTrace)
         (Settle 1 (ImageAnswer
            (Fulfilled ([mkPart None]
                        ++ mkPart (Some (mkInline "image/png" "AAAA"))
                        :: [mkPart (Some (mkInline "image/jpeg" "BBBB"))]))))
    = Some w' /\
    map Scene.storyboardUrl (Script.scenes (script (app w')))
    = [Some "data:image/png;base64,AAAA"; None; None].
Proof.
  assert (Hk : jobs (after imageTrace) !! 1%nat
               = Some (AwaitImage "s0" "red emergency lighting"))
    by (vm_compute; reflexivity).
  assert (Hp : List.Forall (fun p => inlineData p = None) [mkPart None])
    by (repeat constructor).
  split; [exact Hk|]. split; [exact Hp|].
  destruct (image_reply_first_part (after imageTrace) 1 "s0" _
              [mkPart None]
              [mkPart (Some (mkInline "image/jpeg" "BBBB"))]
              (mkPart (Some (mkInline "image/png" "AAAA")))
              (mkInline "image/png" "AAAA") Hk Hp eq_refl)
    as (w' & Hstep & Hscenes & _).
  exists w'. split; [exact Hstep|]. rewrite Hscenes.
  vm_compute. reflexivity.
Defined.

(** ** Thumbnails on the timeline *)

Lemma find_among {A : Type} (p : A -> bool) (l : list A) (x : A) :
  In x l -> p x = true -> exists y, List.find p l = Some y /\ p y = true.
Proof.
  intros Hx Hp. destruct (List.find p l) as [y|] eqn:E.
  - exists y. split; [reflexivity|]. apply (List.find_some _ _ E).
  - rewrite (List.find_none _ _ E x Hx) in Hp. discriminate.
Qed.

(** X11. An image reaches the timeline: when an image job of a scene id
    ends with an image, every clip linked to that id shows this image as
    its thumbnail, provided the link is not the empty string and a scene of
    that id is still in the scene list. *)
Theorem image_reaches_thumbnails (w : World) (k : nat)
  (sceneId description : string) (parts : list Part) (s : Scene.t)
  (c : Clip.t) (w' : World) :
  jobs w !! k = Some (AwaitImage sceneId description) ->
  imageUrlOf parts <> "" ->
  step w (Settle k (ImageAnswer (Fulfilled parts))) = Some w' ->
  In s (Script.scenes (script (app w))) -> Scene.id s = sceneId ->
  Clip.sceneId c = Some sceneId -> sceneId <> "" ->
  thumbnail c (app w') = Some (imageUrlOf parts).
Proof.
  intros Hk Hurl Hstep Hs Hid Hlink Hne.
  rewrite (step_settle w k _ _ Hk) in Hstep. cbn [resume] in Hstep.
  injection Hstep as <-.
  apply String.eqb_neq in Hurl, Hne.
  unfold thumbnail, nonEmpty. rewrite Hlink, Hne.
  unfold imageSettled. rewrite Hurl. cbn [negb app onApp script setScript
    setGeneratingImages Script.scenes Script.with_scenes dropJob].
  rewrite find_map_same.
  2:{ intros x. cbn beta.
      destruct (String.eqb (Scene.id x) sceneId) eqn:E; cbn; rewrite ?E;
        reflexivity. }
  destruct (find_among (fun x => String.eqb (Scene.id x) sceneId)
              (Script.scenes (script (app w))) s Hs)
    as (y & -> & Hy).
  { rewrite Hid. apply String.eqb_refl. }
  cbn [option_map]. rewrite Hy. cbn [Scene.storyboardUrl
    Scene.with_storyboardUrl]. rewrite Hurl. reflexivity.
Qed.

Lemma image_reaches_thumbnails_witness :
  exists w',
    step (after (parsedTrace ++ [ClickAddToTimeline 0 "c0";
                                 ClickTab TabStoryboard;
                                 ClickGenerateImage 0]))
         (Settle 1 (ImageAnswer
            (Fulfilled [mkPart (Some (mkInline "image/png" "AAAA"))])))
    = Some w' /\
    thumbnail (sceneClip scene0 "c0" 0%float) (app w')
    = Some "data:image/png;base64,AAAA".
Proof.
  set (w := after (parsedTrace ++ [ClickAddToTimeline 0 "c0";
                                   ClickTab TabStoryboard;
                                   ClickGenerateImage 0])).
  set (parts := [mkPart (Some (mkInline "image/png" "AAAA"))]).
  assert (Hk : jobs w !! 1%nat
               = Some (AwaitImage "s0" "red emergency lighting"))
    by (vm_compute; reflexivity).
  assert (Hurl : imageUrlOf parts <> "") by discriminate.
  destruct (step w (Settle 1 (ImageAnswer (Fulfilled parts))))
    as [w'|] eqn:Hstep; [|vm_compute in Hstep; discriminate].
  assert (Hs : In scene0 (Script.scenes (script (app w))))
    by (vm_compute; auto).
  assert (Hne : "s0" <> "") by discriminate.
  exists w'. split; [reflexivity|].
  exact (image_reaches_thumbnails w 1 "s0" _ parts scene0
           (sceneClip scene0 "c0" 0%float) w'
           Hk Hurl Hstep Hs eq_refl eq_refl Hne).
Defined.

(** ** The end of a video job *)

(** X12. When the video of a job has been fetched, every scene with the id
    of the scene the job was started for gets the video URL; its image and
    its duration stay; the video flag of that id is cleared.  If the URL is
    not empty, the card of such a scene shows the video, its video button
    reads "Regenerate Video", and a storyboard image generated later does
    not change what the card shows. *)
Theorem video_fetched (w : World) (k : nat) (scene : Scene.t)
  (videoUrl : string) :
  jobs w !! k = Some (AwaitFetch scene) ->
  videoUrl <> "" ->
  exists w',
    step w (Settle k (FetchAnswer (Fulfilled videoUrl))) = Some w' /\
    Script.scenes (script (app w'))
    = map (fun s => if String.eqb (Scene.id s) (Scene.id scene)
                    then Scene.with_videoUrl videoUrl s else s)
          (Script.scenes (script (app w))) /\
    map Scene.storyboardUrl (Script.scenes (script (app w')))
    = map Scene.storyboardUrl (Script.scenes (script (app w))) /\
    map Scene.duration (Script.scenes (script (app w')))
    = map Scene.duration (Script.scenes (script (app w))) /\
    veoState (app w') !! Scene.id scene = Some (mkVeo false "") /\
    tracks (app w') = tracks (app w) /\
    alerts w' = alerts w /\ console w' = console w /\
    forall s, In s (Script.scenes (script (app w'))) ->
      Scene.id s = Scene.id scene ->
      visualOf s = ShowVideo videoUrl /\
      videoButtonLabel s = "Regenerate Video" /\
      forall u, visualOf (Scene.with_storyboardUrl u s) = ShowVideo videoUrl.
Proof.
  intros Hk Hurl. rewrite (step_settle w k _ _ Hk). cbn [resume].
  eexists. split; [reflexivity|].
  unfold veoFetchSettled, veoFinally, onApp, dropJob.
  cbn [app script tracks alerts console setScript setVeoState veoState
       Script.scenes Script.with_scenes].
  split; [reflexivity|]. split.
  { rewrite map_map. apply map_ext. intros s.
    destruct (String.eqb (Scene.id s) (Scene.id scene)); reflexivity. }
  split.
  { rewrite map_map. apply map_ext. intros s.
    destruct (String.eqb (Scene.id s) (Scene.id scene)); reflexivity. }
  split; [apply lookup_insert_eq|]. repeat split.
  - apply in_map_iff in H as (s0 & <- & _).
    destruct (String.eqb (Scene.id s0) (Scene.id scene)) eqn:E;
      [|apply String.eqb_neq in E; contradiction].
    unfold visualOf, nonEmpty. cbn [Scene.videoUrl Scene.with_videoUrl].
    apply String.eqb_neq in Hurl. rewrite Hurl. reflexivity.
  - apply in_map_iff in H as (s0 & <- & _).
    destruct (String.eqb (Scene.id s0) (Scene.id scene)) eqn:E;
      [|apply String.eqb_neq in E; contradiction].
    unfold videoButtonLabel, truthy.
    cbn [Scene.videoUrl Scene.with_videoUrl].
    apply String.eqb_neq in Hurl. rewrite Hurl. reflexivity.
  - intros u. apply in_map_iff in H as (s0 & <- & _).
    destruct (String.eqb (Scene.id s0) (Scene.id scene)) eqn:E;
      [|apply String.eqb_neq in E; contradiction].
    unfold visualOf, nonEmpty.
    cbn [Scene.videoUrl Scene.with_videoUrl Scene.with_storyboardUrl].
    apply String.eqb_neq in Hurl. rewrite Hurl. reflexivity.
Qed.

Lemma video_fetched_witness :
  jobs (after fetchingTrace) !! 0%nat = Some (AwaitFetch scene0Imaged) /\
  "blob:1" <> "" /\
  exists w',
    step (after fetchingTrace) (Settle 0 (FetchAnswer (Fulfilled "blob:1")))
    = Some w' /\
    map visualOf (Script.scenes (script (app w')))
    = [ShowVideo "blob:1"; NoVisual; NoVisual] /\
    veoBusy "s0" (app w') = false.
Proof.
  assert (Hk : jobs (after fetchingTrace) !! 0%nat
               = Some (AwaitFetch scene0Imaged))
    by (vm_compute; reflexivity).
  assert (Hurl : "blob:1" <> "") by discriminate.
  split; [exact Hk|]. split; [exact Hurl|].
  destruct (video_fetched (after fetchingTrace) 0 scene0Imaged "blob:1"
              Hk Hurl) as (w' & Hstep & Hscenes & _ & _ & Hflag & _).
  exists w'. split; [exact Hstep|]. split.
  - rewrite Hscenes. vm_compute. reflexivity.
  - unfold veoBusy. change (Scene.id scene0Imaged) with "s0" in Hflag.
    rewrite Hflag. reflexivity.
Defined.

(** ** The result of an analysis *)

Lemma newScenes_lookup (ids : nat -> string) (n m : nat)
  (parsed : list RawScene) :
  newScenes ids n parsed !! m
  = option_map (fun raw =>
      Scene.mk (ids (n + m)%nat) (scene_number raw) (raw_slugline raw)
               (visual_description raw) None None (estimated_duration raw))
      (parsed !! m).
Proof.
  revert n m. induction parsed as [|raw rest IH]; intros n m;
    [reflexivity|].
  destruct m as [|m]; simpl.
  - rewrite Nat.add_0_r. reflexivity.
  - rewrite IH. replace (S n + m)%nat with (n + S m)%nat by lia.
    reflexivity.
Qed.

Lemma newScenes_no_visual (ids : nat -> string) (n : nat)
  (parsed : list RawScene) (s : Scene.t) :
  In s (newScenes ids n parsed) -> visualOf s = NoVisual.
Proof.
  revert n. induction parsed as [|raw rest IH]; intros n; simpl;
    [contradiction|].
  intros [<-|Hs]; [reflexivity|]. eapply IH, Hs.
Qed.

(** X13. A successful analysis replaces the whole scene list: the n-th
    scene is built from the n-th element of the reply, with the n-th id
    drawn, and has neither image nor video, so every card shows the
    placeholder; the storyboard tab opens and the parsing flag is cleared.
    The clips on the timeline and the flags of the image and video jobs
    are left as they are. *)
Theorem parse_replaces_scenes (w : World) (k : nat)
  (parsed : list RawScene) (ids : nat -> string) :
  jobs w !! k = Some AwaitParse ->
  exists w',
    step w (Settle k (ParseAnswer (Fulfilled parsed) ids)) = Some w' /\
    length (Script.scenes (script (app w'))) = length parsed /\
    (forall n raw, parsed !! n = Some raw ->
       Script.scenes (script (app w')) !! n
       = Some (Scene.mk (ids n) (scene_number raw) (raw_slugline raw)
                        (visual_description raw) None None
                        (estimated_duration raw))) /\
    (forall s, In s (Script.scenes (script (app w'))) ->
       visualOf s = NoVisual) /\
    activeTab (app w') = TabStoryboard /\
    isParsing (app w') = false /\
    tracks (app w') = tracks (app w) /\
    generatingImages (app w') = generatingImages (app w) /\
    veoState (app w') = veoState (app w) /\
    alerts w' = alerts w /\ console w' = console w.
Proof.
  intros Hk. rewrite (step_settle w k _ _ Hk). cbn [resume].
  eexists. split; [reflexivity|].
  unfold parseSettled, onApp, dropJob.
  cbn [app script tracks alerts console generatingImages veoState activeTab
       isParsing setScript setActiveTab setIsParsing Script.scenes
       Script.with_scenes].
  split; [apply newScenes_length|]. split.
  { intros n raw Hn. rewrite newScenes_lookup, Hn. reflexivity. }
  split; [intros s; apply newScenes_no_visual|].
  repeat split.
Qed.

Lemma parse_replaces_scenes_witness :
  jobs (after reparseTrace) !! 1%nat = Some AwaitParse /\
  exists w',
    step (after reparseTrace)
         (Settle 1 (ParseAnswer
            (Fulfilled [mkRaw 7 "EXT. DOCK - DAWN" "fog" 3%float])
            (fun n => "t" ++ pretty n)%string))
    = Some w' /\
    Script.scenes (script (app w'))
    = [Scene.mk "t0" 7 "EXT. DOCK - DAWN" "fog" None None 3%float].
Proof.
  assert (Hk : jobs (after reparseTrace) !! 1%nat = Some AwaitParse)
    by (vm_compute; reflexivity).
  split; [exact Hk|].
  destruct (parse_replaces_scenes (after reparseTrace) 1
              [mkRaw 7 "EXT. DOCK - DAWN" "fog" 3%float]
              (fun n => "t" ++ pretty n)%string Hk)
    as (w' & Hstep & Hlen & Hn & _).
  exists w'. split; [exact Hstep|].
  specialize (Hn 0%nat _ eq_refl).
  destruct (Script.scenes (script (app w'))) as [|s [|s' l]];
    try discriminate.
  simpl in Hn. injection Hn as ->. reflexivity.
Defined.

(** ** One analysis at a time *)

Lemma countJobs_suspend (p : Job -> bool) (j : Job) (w : World) :
  p j = false -> countJobs p (jobs (suspend j w)) = countJobs p (jobs w).
Proof.
  intros H. unfold suspend. cbn [jobs]. rewrite countJobs_app. simpl.
  rewrite H. lia.
Qed.

(** Closes a frame goal once the branches of the handler are split. *)
Ltac parse_frame :=
  intros w; split;
  [ reflexivity
  | rewrite ?countJobs_suspend by reflexivity; reflexivity ].

Lemma keySettled_parsing r : keepsParsing (keySettled r).
Proof. unfold keySettled. destruct r; parse_frame. Qed.

Lemma generateStoryboardImage_parsing sceneId description :
  keepsParsing (generateStoryboardImage sceneId description).
Proof. unfold generateStoryboardImage. parse_frame. Qed.

Lemma imageSettled_parsing sceneId r : keepsParsing (imageSettled sceneId r).
Proof.
  unfold imageSettled. destruct r as [parts|e]; [|parse_frame].
  destruct (negb (String.eqb (imageUrlOf parts) "")); parse_frame.
Qed.

Lemma veoRequest_parsing scene : keepsParsing (veoRequest scene).
Proof.
  unfold veoRequest. destruct (negb (truthy (Scene.storyboardUrl scene)));
    parse_frame.
Qed.

Lemma generateVeoVideo_parsing scene : keepsParsing (generateVeoVideo scene).
Proof.
  intros w. unfold generateVeoVideo. destruct (negb (hasPaidKey (app w))).
  - revert w. parse_frame.
  - apply veoRequest_parsing.
Qed.

Lemma veoKeySettled_parsing scene sel recheck :
  keepsParsing (veoKeySettled scene sel recheck).
Proof.
  unfold veoKeySettled. destruct sel as [| |hasKey]; try parse_frame.
  destruct recheck as [[|]|]; try parse_frame.
  intros w.
  destruct (veoRequest_parsing scene (onApp (setHasPaidKey hasKey) w))
    as [-> ->]. split; reflexivity.
Qed.

Lemma veoPolling_parsing scene operation :
  keepsParsing (veoPolling scene operation).
Proof.
  unfold veoPolling, veoDone.
  destruct (done_ operation); [destruct (truthy (videoUri operation))|];
    parse_frame.
Qed.

Lemma veoVideosSettled_parsing scene r :
  keepsParsing (veoVideosSettled scene r).
Proof.
  unfold veoVideosSettled. destruct r as [operation|e]; [|parse_frame].
  intros w.
  match goal with
  | |- context [veoPolling scene operation ?w1] =>
      destruct (veoPolling_parsing scene operation w1) as [-> ->]
  end.
  split; reflexivity.
Qed.

Lemma veoPollSettled_parsing scene r : keepsParsing (veoPollSettled scene r).
Proof.
  unfold veoPollSettled. destruct r as [operation|e]; [|parse_frame].
  apply veoPolling_parsing.
Qed.

Lemma veoFetchSettled_parsing scene r :
  keepsParsing (veoFetchSettled scene r).
Proof. unfold veoFetchSettled. destruct r; parse_frame. Qed.

Lemma keepsParsing_invariant (f : World -> World) (w : World) :
  keepsParsing f -> parsingFlagCountsJobs w -> parsingFlagCountsJobs (f w).
Proof.
  intros Hf Hw. unfold parsingFlagCountsJobs.
  destruct (Hf w) as [-> ->]. exact Hw.
Qed.

Lemma step_parsing (w : World) (e : Event) (w' : World) :
  parsingFlagCountsJobs w -> step w e = Some w' -> parsingFlagCountsJobs w'.
Proof.
  intros Hw. destruct e; unfold step; intros H.
  - injection H as <-. exact Hw.
  - destruct (hasPaidKey (app w)); [discriminate|]. injection H as <-.
    unfold parsingFlagCountsJobs. rewrite countJobs_suspend by reflexivity.
    exact Hw.
  - destruct (activeTab (app w)); try discriminate. injection H as <-.
    exact Hw.
  - destruct (activeTab (app w)); try discriminate.
    destruct (isParsing (app w)) eqn:Hflag; injection H as <-; [exact Hw|].
    unfold parseScript. destruct (isBlank _); [exact Hw|].
    unfold parsingFlagCountsJobs in *. unfold suspend, onApp.
    cbn [jobs app isParsing setIsParsing]. rewrite countJobs_app, Hw, Hflag.
    reflexivity.
  - destruct (card i w) as [scene|]; [|discriminate]. injection H as <-.
    unfold onApp.
    destruct (onDurationChange_cases scene val (app w)) as [E|[_ E]];
      rewrite E; exact Hw.
  - destruct (card i w) as [scene|]; [|discriminate].
    destruct (imageBusy _ _); injection H as <-; [exact Hw|].
    apply keepsParsing_invariant;
      [apply generateStoryboardImage_parsing|exact Hw].
  - destruct (card i w) as [scene|]; [|discriminate].
    destruct (veoBusy _ _); injection H as <-; [exact Hw|].
    apply keepsParsing_invariant; [apply generateVeoVideo_parsing|exact Hw].
  - destruct (card i w) as [scene|]; [|discriminate]. injection H as <-.
    exact Hw.
  - destruct (jobs w !! k) as [j|] eqn:Hk; [|discriminate].
    pose proof (countJobs_delete isParseJob (jobs w) k j Hk) as Hcount.
    unfold parsingFlagCountsJobs in Hw. rewrite Hw in Hcount.
    destruct j, r; simpl in H; try discriminate; injection H as <-;
      cbn [isParseJob] in Hcount;
      try (apply keepsParsing_invariant;
           [ first [ apply keySettled_parsing | apply imageSettled_parsing
                   | apply veoKeySettled_parsing
                   | apply veoVideosSettled_parsing
                   | apply veoPollSettled_parsing
                   | apply veoFetchSettled_parsing ]
           | unfold parsingFlagCountsJobs, dropJob; cbn [jobs app];
             rewrite Hcount; reflexivity ]).
    (* the analysis ends *)
    unfold parsingFlagCountsJobs.
    match goal with
    | |- context [parseSettled ?r1 ?ids1 _] =>
        assert (E : countJobs isParseJob
                      (jobs (parseSettled r1 ids1 (dropJob k w)))
                    = countJobs isParseJob (delete k (jobs w)))
          by (unfold parseSettled; destruct r1; reflexivity);
        assert (F : isParsing (app (parseSettled r1 ids1 (dropJob k w)))
                    = false)
          by (unfold parseSettled; destruct r1; reflexivity)
    end.
    rewrite E, F. destruct (isParsing (app w)); lia.
Qed.

(** X14. At most one analysis of the script is under way, and the parsing
    flag tells it: in every reachable world the number of pending
    [parseScript] calls is 1 if [isParsing] is set and 0 if it is not. So
    the flag, which disables the button, never stays set without a pending
    call, and a pending call never goes unflagged. *)
Theorem reachable_parsing_flag (w : World) :
  reachable w -> parsingFlagCountsJobs w.
Proof.
  induction 1 as [|w e w' _ IH Hstep]; [reflexivity|].
  exact (step_parsing w e w' IH Hstep).
Qed.

Lemma reachable_parsing_flag_witness :
  reachable (after reparseTrace) /\
  parsingFlagCountsJobs (after reparseTrace).
Proof.
  assert (Hw : reachable (after reparseTrace))
    by (apply after_reachable; vm_compute; eauto).
  split; [exact Hw|]. exact (reachable_parsing_flag _ Hw).
Defined.

(** ** No spinner without a job *)

Lemma countJobs_snoc_le (p : Job -> bool) (l : list Job) (j : Job) :
  (countJobs p l <= countJobs p (l ++ [j]))%nat.
Proof. rewrite countJobs_app. lia. Qed.

Lemma backed_suspend (skip : option string) (j : Job) (w : World) :
  veoFlagsBackedBut skip w -> veoFlagsBackedBut skip (suspend j w).
Proof.
  intros [H1 H2]. split; [exact H1|].
  intros sid Hs Hb. specialize (H2 sid Hs Hb).
  unfold videoJobs, suspend in *. cbn [jobs].
  pose proof (countJobs_snoc_le (isVideoJob sid) (jobs w) j). lia.
Qed.

Lemma backed_same (skip : option string) (w w' : World) :
  veoState (app w') = veoState (app w) -> jobs w' = jobs w ->
  veoFlagsBackedBut skip w -> veoFlagsBackedBut skip w'.
Proof.
  intros Ev Ej [H1 H2]. unfold veoFlagsBackedBut, veoBusy, videoJobs in *.
  rewrite Ev, Ej. split; assumption.
Qed.

Lemma backed_weaken (skip : option string) (w : World) :
  veoFlagsBacked w -> veoFlagsBackedBut skip w.
Proof.
  intros [H1 H2]. split; [exact H1|]. intros sid _. apply H2. discriminate.
Qed.

Lemma backed_dropJob (skip : option string) (k : nat) (j : Job) (w : World) :
  veoFlagsBacked w -> jobs w !! k = Some j ->
  (forall sceneId, skip <> Some sceneId -> isVideoJob sceneId j = false) ->
  veoFlagsBackedBut skip (dropJob k w).
Proof.
  intros [H1 H2] Hk Hj. split; [exact H1|].
  intros sid Hs Hb. specialize (H2 sid ltac:(discriminate) Hb).
  unfold videoJobs in *.
  rewrite (countJobs_delete (isVideoJob sid) (jobs w) k j Hk) in H2.
  rewrite (Hj sid Hs) in H2. exact H2.
Qed.

Lemma backed_set (scene : Scene.t) (v : VeoGenerationState) (w : World) :
  veoFlagsBackedBut (Some (Scene.id scene)) w -> veoStateKnown v ->
  veoFlagsBackedBut (Some (Scene.id scene))
    (onApp (setVeoState (fun prev => <[Scene.id scene := v]> prev)) w).
Proof.
  intros [H1 H2] Hv. split.
  - intros sid v'. unfold onApp. cbn [app veoState setVeoState].
    destruct (decide (Scene.id scene = sid)) as [->|Hne].
    + rewrite lookup_insert_eq. intros E. injection E as <-. exact Hv.
    + rewrite lookup_insert_ne by exact Hne. apply H1.
  - intros sid Hs. unfold onApp. cbn [app]. rewrite veoBusy_insert.
    destruct (String.eqb (Scene.id scene) sid) eqn:E.
    + apply String.eqb_eq in E. congruence.
    + apply H2, Hs.
Qed.

Lemma backed_finally (scene : Scene.t) (w : World) :
  veoFlagsBackedBut (Some (Scene.id scene)) w ->
  veoFlagsBacked (veoFinally scene w).
Proof.
  intros H. destruct (backed_set scene (mkVeo false "") w H) as [H1 H2].
  { right. right. reflexivity. }
  split; [exact H1|]. intros sid _ Hb.
  destruct (decide (Scene.id scene = sid)) as [<-|Hne].
  - unfold veoFinally, onApp in Hb. cbn [app] in Hb.
    rewrite veoBusy_insert, String.eqb_refl in Hb. discriminate.
  - apply H2; [congruence|exact Hb].
Qed.

Lemma backed_failed (scene : Scene.t) (e : string) (w : World) :
  veoFlagsBackedBut (Some (Scene.id scene)) w ->
  veoFlagsBacked (veoFailed scene e w).
Proof.
  intros H. unfold veoFailed. apply backed_finally.
  eapply backed_same; [| |exact H]; reflexivity.
Qed.

Lemma backed_resuspend (scene : Scene.t) (j : Job) (w : World) :
  veoFlagsBackedBut (Some (Scene.id scene)) w ->
  isVideoJob (Scene.id scene) j = true ->
  veoFlagsBacked (suspend j w).
Proof.
  intros H Hj. destruct (backed_suspend _ j w H) as [H1 H2].
  split; [exact H1|]. intros sid _ Hb.
  destruct (decide (Scene.id scene = sid)) as [<-|Hne].
  - unfold videoJobs, suspend. cbn [jobs]. rewrite countJobs_app. simpl.
    rewrite Hj. lia.
  - apply H2; [congruence|exact Hb].
Qed.

Lemma backed_veoRequest (scene : Scene.t) (w : World) :
  veoFlagsBacked w -> veoFlagsBacked (veoRequest scene w).
Proof.
  intros H. unfold veoRequest.
  destruct (negb (truthy (Scene.storyboardUrl scene))).
  - eapply backed_same; [| |exact H]; reflexivity.
  - apply (backed_resuspend scene); [|apply String.eqb_refl].
    apply backed_set; [apply backed_weaken, H|left; reflexivity].
Qed.

Lemma backed_veoPolling (scene : Scene.t) (operation : Operation)
  (w : World) :
  veoFlagsBackedBut (Some (Scene.id scene)) w ->
  veoFlagsBacked (veoPolling scene operation w).
Proof.
  intros H. unfold veoPolling, veoDone. destruct (done_ operation).
  - destruct (truthy (videoUri operation)).
    + apply (backed_resuspend scene); [exact H|apply String.eqb_refl].
    + apply backed_finally, H.
  - apply (backed_resuspend scene); [exact H|apply String.eqb_refl].
Qed.

Lemma backed_resume (k : nat) (j : Job) (r : Reply) (w w' : World) :
  veoFlagsBacked w -> jobs w !! k = Some j ->
  resume j r (dropJob k w) = Some w' -> veoFlagsBacked w'.
Proof.
  intros Hw Hk Hres.
  assert (Hplain : (forall sceneId, isVideoJob sceneId j = false) ->
                   veoFlagsBacked (dropJob k w)).
  { intros Hj. apply (backed_dropJob None k j w Hw Hk). intros sid _.
    apply Hj. }
  assert (Hvideo : forall scene,
            (forall sceneId, isVideoJob sceneId j
                             = String.eqb (Scene.id scene) sceneId) ->
            veoFlagsBackedBut (Some (Scene.id scene)) (dropJob k w)).
  { intros scene Hj. apply (backed_dropJob _ k j w Hw Hk). intros sid Hs.
    rewrite Hj. apply String.eqb_neq. congruence. }
  destruct j, r; simpl in Hres; try discriminate; injection Hres as <-.
  - unfold keySettled. destruct sel;
      (eapply backed_same; [| |apply Hplain]; reflexivity).
  - unfold keySettled. destruct sel;
      (eapply backed_same; [| |apply Hplain]; reflexivity).
  - unfold parseSettled.
    match goal with |- context [match ?r1 with _ => _ end] => destruct r1 end;
      (eapply backed_same; [| |apply Hplain]; reflexivity).
  - unfold imageSettled.
    match goal with |- context [match ?r1 with _ => _ end] => destruct r1 end;
      [match goal with |- context [if ?b then _ else _] => destruct b end|];
      (eapply backed_same; [| |apply Hplain]; reflexivity).
  - unfold veoKeySettled. destruct sel as [| |hasKey];
      try (apply Hplain; reflexivity).
    destruct recheck as [[|]|];
      try (eapply backed_same; [| |apply Hplain]; reflexivity).
    apply backed_veoRequest.
    eapply backed_same; [| |apply Hplain]; reflexivity.
  - unfold veoVideosSettled.
    match goal with |- context [match ?r1 with _ => _ end] => destruct r1 end.
    + apply backed_veoPolling, backed_set;
        [apply Hvideo; reflexivity|right; left; reflexivity].
    + apply backed_failed, Hvideo. reflexivity.
  - unfold veoPollSettled.
    match goal with |- context [match ?r1 with _ => _ end] => destruct r1 end.
    + apply backed_veoPolling, Hvideo. reflexivity.
    + apply backed_failed, Hvideo. reflexivity.
  - unfold veoFetchSettled.
    match goal with |- context [match ?r1 with _ => _ end] => destruct r1 end.
    + apply backed_finally.
      eapply backed_same; [| |apply (Hvideo scene)]; reflexivity.
    + apply backed_failed, Hvideo. reflexivity.
Qed.

Lemma step_backed (w : World) (e : Event) (w' : World) :
  veoFlagsBacked w -> step w e = Some w' -> veoFlagsBacked w'.
Proof.
  intros Hw. destruct e; unfold step; intros H.
  - injection H as <-. eapply backed_same; [| |exact Hw]; reflexivity.
  - destruct (hasPaidKey (app w)); [discriminate|]. injection H as <-.
    apply backed_suspend, Hw.
  - destruct (activeTab (app w)); try discriminate. injection H as <-.
    eapply backed_same; [| |exact Hw]; reflexivity.
  - destruct (activeTab (app w)); try discriminate.
    destruct (isParsing (app w)); injection H as <-; [exact Hw|].
    unfold parseScript. destruct (isBlank _); [exact Hw|].
    apply backed_suspend. eapply backed_same; [| |exact Hw]; reflexivity.
  - destruct (card i w) as [scene|]; [|discriminate]. injection H as <-.
    unfold onApp.
    destruct (onDurationChange_cases scene val (app w)) as [E|[_ E]];
      rewrite E; (eapply backed_same; [| |exact Hw]; reflexivity).
  - destruct (card i w) as [scene|]; [|discriminate].
    destruct (imageBusy _ _); injection H as <-; [exact Hw|].
    apply backed_suspend. eapply backed_same; [| |exact Hw]; reflexivity.
  - destruct (card i w) as [scene|]; [|discriminate].
    destruct (veoBusy _ _); injection H as <-; [exact Hw|].
    unfold generateVeoVideo. destruct (negb (hasPaidKey (app w))).
    + apply backed_suspend, Hw.
    + apply backed_veoRequest, Hw.
  - destruct (card i w) as [scene|]; [|discriminate]. injection H as <-.
    eapply backed_same; [| |exact Hw]; reflexivity.
  - destruct (jobs w !! k) as [j|] eqn:Hk; [|discriminate].
    exact (backed_resume k j r w w' Hw Hk H).
Qed.

Lemma reachable_backed (w : World) : reachable w -> veoFlagsBacked w.
Proof.
  induction 1 as [|w e w' _ IH Hstep].
  - split; [|intros sid _ Hb; discriminate].
    intros sid v Hv. vm_compute in Hv. discriminate.
  - exact (step_backed w e w' IH Hstep).
Qed.

(** X15. No spinner without a job: in every reachable world, when the
    status overlay of a scene card is shown, its text is "Rendering
    Image..." and exactly one image job of that scene id is pending, or
    its text is "Initializing Veo..." or "Generating video..." and a video
    job of that scene id is pending. *)
Theorem overlay_means_job (w : World) (scene : Scene.t) (msg : string) :
  reachable w ->
  overlay scene (app w) = Some msg ->
  (msg = "Rendering Image..." /\ imageJobs (Scene.id scene) w = 1%nat) \/
  ((msg = "Initializing Veo..." \/ msg = "Generating video...") /\
   (1 <= videoJobs (Scene.id scene) w)%nat).
Proof.
  intros Hw. destruct (reachable_backed w Hw) as [H1 H2].
  pose proof (reachable_invariant w Hw (Scene.id scene)) as Himg.
  specialize (H1 (Scene.id scene)).
  specialize (H2 (Scene.id scene) ltac:(discriminate)).
  unfold overlay. unfold veoBusy in *.
  destruct (veoState (app w) !! Scene.id scene) as [v|].
  - destruct (H1 v eq_refl) as [-> | [-> | ->]]; cbn [isGenerating progressMessage].
    + rewrite orb_true_r. intros E. injection E as <-. right. auto.
    + rewrite orb_true_r. intros E. injection E as <-. right. auto.
    + rewrite orb_false_r.
      destruct (imageBusy (Scene.id scene) (app w)); [|discriminate].
      intros E. injection E as <-. left. auto.
  - rewrite orb_false_r.
    destruct (imageBusy (Scene.id scene) (app w)); [|discriminate].
    intros E. injection E as <-. left. auto.
Qed.

Lemma overlay_means_job_witness :
  reachable (after imageTrace) /\
  overlay scene0 (app (after imageTrace)) = Some "Rendering Image..." /\
  ("Rendering Image..." = "Rendering Image..." /\
   imageJobs (Scene.id scene0) (after imageTrace) = 1%nat \/
   ("Rendering Image..." = "Initializing Veo..." \/
    "Rendering Image..." = "Generating video...") /\
   (1 <= videoJobs (Scene.id scene0) (after imageTrace))%nat).
Proof.
  assert (Hw : reachable (after imageTrace))
    by (apply after_reachable; vm_compute; eauto).
  assert (Ho : overlay scene0 (app (after imageTrace))
               = Some "Rendering Image...") by (vm_compute; reflexivity).
  split; [exact Hw|]. split; [exact Ho|].
  exact (overlay_means_job _ scene0 _ Hw Ho).
Defined.

(** ** The failure and the empty end of a video job *)

(** X16. A video job that fails, at the request, at a poll or at the fetch
    of the video, writes nothing to the scenes or the tracks: it logs the
    error, shows the alert "Video generation failed. Ensure you are using a
    paid billing project.", and clears the video flag of its scene to
    not-generating with an empty message. *)
Theorem video_failure (w : World) (k : nat) (scene : Scene.t) (e : string)
  (j : Job) (r : Reply) :
  jobs w !! k = Some j ->
  (j = AwaitVideos scene /\ r = OperationAnswer (Rejected e)) \/
  (j = AwaitPoll scene /\ r = OperationAnswer (Rejected e)) \/
  (j = AwaitFetch scene /\ r = FetchAnswer (Rejected e)) ->
  exists w',
    step w (Settle k r) = Some w' /\
    script (app w') = script (app w) /\
    tracks (app w') = tracks (app w) /\
    veoState (app w') !! Scene.id scene = Some (mkVeo false "") /\
    jobs w' = delete k (jobs w) /\
    alerts w'
    = alerts w
      ++ ["Video generation failed. Ensure you are using a paid billing project."] /\
    console w' = console w ++ [("Veo generation failed", e)].
Proof.
  intros Hk Hcase. rewrite (step_settle w k j r Hk).
  exists (veoFailed scene e (dropJob k w)). split.
  - destruct Hcase as [[-> ->]|[[-> ->]|[-> ->]]]; reflexivity.
  - unfold veoFailed, veoFinally, onApp. cbn.
    repeat split. apply lookup_insert_eq.
Qed.

Lemma video_failure_witness :
  jobs (after pollingTrace) !! 0%nat = Some (AwaitPoll scene0Imaged) /\
  exists w',
    step (after pollingTrace) (Settle 0 (OperationAnswer (Rejected "503")))
    = Some w' /\
    script (app w') = script (app (after pollingTrace)) /\
    veoBusy "s0" (app w') = false /\
    console w' = [("Veo generation failed", "503")].
Proof.
  assert (Hk : jobs (after pollingTrace) !! 0%nat
               = Some (AwaitPoll scene0Imaged)) by (vm_compute; reflexivity).
  split; [exact Hk|].
  destruct (video_failure (after pollingTrace) 0 scene0Imaged "503" _
              (OperationAnswer (Rejected "503")) Hk)
    as (w' & Hstep & Hscript & _ & Hflag & _ & _ & Hcons).
  { right. left. split; reflexivity. }
  exists w'. split; [exact Hstep|]. split; [exact Hscript|]. split.
  - unfold veoBusy. change (Scene.id scene0Imaged) with "s0" in Hflag.
    rewrite Hflag. reflexivity.
  - rewrite Hcons. vm_compute. reflexivity.
Defined.

Lemma veoFinally_after_set (scene : Scene.t) (v : VeoGenerationState)
  (w : World) :
  veoFinally scene
    (onApp (setVeoState (fun prev => <[Scene.id scene := v]> prev)) w)
  = veoFinally scene w.
Proof.
  unfold veoFinally, onApp, setVeoState. cbn. rewrite insert_insert_eq.
  reflexivity.
Qed.

(** X17. A video operation that is done but carries no video address (none,
    or an empty one), be it the first answer of [generateVideos] or the
    answer of a poll, ends the job without a result and without a word: no
    scene gets a video, nothing is fetched, logged or shown; the world
    afterwards is the one before without the job and with the video flag
    of the scene cleared. *)
Theorem video_done_without_uri (w : World) (k : nat) (scene : Scene.t)
  (j : Job) (operation : Operation) :
  jobs w !! k = Some j ->
  j = AwaitVideos scene \/ j = AwaitPoll scene ->
  done_ operation = true ->
  truthy (videoUri operation) = false ->
  step w (Settle k (OperationAnswer (Fulfilled operation)))
  = Some (veoFinally scene (dropJob k w)) /\
  script (app (veoFinally scene (dropJob k w))) = script (app w) /\
  tracks (app (veoFinally scene (dropJob k w))) = tracks (app w) /\
  jobs (veoFinally scene (dropJob k w)) = delete k (jobs w) /\
  alerts (veoFinally scene (dropJob k w)) = alerts w /\
  console (veoFinally scene (dropJob k w)) = console w /\
  veoState (app (veoFinally scene (dropJob k w))) !! Scene.id scene
  = Some (mkVeo false "") /\
  veoBusy (Scene.id scene) (app (veoFinally scene (dropJob k w))) = false.
Proof.
  intros Hk Hj Hdone Huri. rewrite (step_settle w k _ _ Hk). split.
  - destruct Hj as [->| ->]; cbn [resume];
      unfold veoVideosSettled, veoPollSettled, veoPolling, veoDone;
      rewrite Hdone, Huri; [rewrite veoFinally_after_set|]; reflexivity.
  - repeat split.
    + unfold veoFinally, onApp. cbn [app veoState setVeoState].
      apply lookup_insert_eq.
    + unfold veoFinally, onApp. cbn [app].
      rewrite veoBusy_insert, String.eqb_refl. reflexivity.
Qed.

Lemma video_done_without_uri_witness :
  jobs (after pollingTrace) !! 0%nat = Some (AwaitPoll scene0Imaged) /\
  step (after pollingTrace)
       (Settle 0 (OperationAnswer (Fulfilled (mkOp true (Some "")))))
  = Some (veoFinally scene0Imaged (dropJob 0 (after pollingTrace))) /\
  jobs (after (keyedTrace ++ [ClickVeoVideo 0])) !! 0%nat
  = Some (AwaitVideos scene0Imaged) /\
  step (after (keyedTrace ++ [ClickVeoVideo 0]))
       (Settle 0 (OperationAnswer (Fulfilled (mkOp true None))))
  = Some (veoFinally scene0Imaged
            (dropJob 0 (after (keyedTrace ++ [ClickVeoVideo 0])))).
Proof.
  assert (Hk : jobs (after pollingTrace) !! 0%nat
               = Some (AwaitPoll scene0Imaged)) by (vm_compute; reflexivity).
  assert (Hk' : jobs (after (keyedTrace ++ [ClickVeoVideo 0])) !! 0%nat
                = Some (AwaitVideos scene0Imaged))
    by (vm_compute; reflexivity).
  split; [exact Hk|]. split.
  - exact (proj1 (video_done_without_uri (after pollingTrace) 0 scene0Imaged
                    _ (mkOp true (Some "")) Hk (or_intror eq_refl)
                    eq_refl eq_refl)).
  - split; [exact Hk'|].
    exact (proj1 (video_done_without_uri _ 0 scene0Imaged
                    _ (mkOp true None) Hk' (or_introl eq_refl)
                    eq_refl eq_refl)).
Defined.

(** ** Clips without a scene *)

(** X18. A clip whose link names no scene of the scene list (its scenes
    were replaced by a later analysis) is out of reach of every duration
    edit: whatever value is typed into whatever card, the clip stays on its
    track exactly as it was. *)
Theorem orphan_clip_keeps_duration (w : World) (i : nat) (val : float)
  (w' : World) (t : Track.t) (c : Clip.t) :
  step w (ChangeDuration i val) = Some w' ->
  In t (tracks (app w)) -> In c (Track.clips t) ->
  (forall s, In s (Script.scenes (script (app w))) ->
     Clip.sceneId c <> Some (Scene.id s)) ->
  exists t',
    In t' (tracks (app w')) /\ Track.id t' = Track.id t /\
    In c (Track.clips t').
Proof.
  intros Hstep Ht Hc Horphan. unfold step in Hstep.
  destruct (card i w) as [scene|] eqn:Hcard; [|discriminate].
  injection Hstep as <-. unfold onApp. cbn [app].
  destruct (onDurationChange_cases scene val (app w)) as [E|[_ E]];
    rewrite E; [exists t; auto|].
  rewrite updateSceneDuration_tracks.
  eexists. split; [apply in_map, Ht|]. split; [reflexivity|].
  cbn [Track.clips Track.with_clips].
  apply in_map_iff. exists c. split; [|exact Hc].
  destruct (linkedTo (Scene.id scene) c) eqn:El; [|reflexivity].
  apply linkedTo_true in El. exfalso.
  apply (Horphan scene); [|exact El].
  apply card_lookup in Hcard as [_ Hi].
  apply list_elem_of_In, list_elem_of_lookup. eauto.
Qed.

Lemma orphan_clip_keeps_duration_witness :
  exists w' t',
    step (after orphanTrace) (ChangeDuration 0 9%float) = Some w' /\
    In t' (tracks (app w')) /\ Track.id t' = 1 /\
    In (sceneClip scene0 "c0" 0%float) (Track.clips t').
Proof.
  set (w := after orphanTrace).
  set (t := Track.mk 1 "Video 1" TrackVideo [sceneClip scene0 "c0" 0%float]).
  assert (Ht : In t (tracks (app w))) by (vm_compute; auto).
  assert (Hc : In (sceneClip scene0 "c0" 0%float) (Track.clips t))
    by (left; reflexivity).
  assert (Ho : forall s, In s (Script.scenes (script (app w))) ->
                 Clip.sceneId (sceneClip scene0 "c0" 0%float)
                 <> Some (Scene.id s)).
  { intros s Hs. vm_compute in Hs. destruct Hs as [<-|[]]. discriminate. }
  destruct (step w (ChangeDuration 0 9%float)) as [w'|] eqn:Hstep;
    [|vm_compute in Hstep; discriminate].
  destruct (orphan_clip_keeps_duration w 0 9%float w' t _ Hstep Ht Hc Ho)
    as (t' & Ht' & Hid & Hc').
  exists w', t'. split; [reflexivity|]. auto.
Defined.
